(** * PowderGui core: lineshapes, center refinement, radial averaging and
      inelastic background estimation (src/core.py)

    The numeric arrays of the program are numpy float arrays, and scalar
    arguments are taken to be floats; the center refiner, whose docstring
    asks for integer guesses, is also embedded on integers, where the
    division of Python 2 is the floor division.  Arithmetic is idealised as
    exact: the
    lineshape library, which needs the exponential, is embedded over the
    real numbers; the image algorithms, which only use field operations,
    comparisons and a rounded square root, are embedded over the rationals
    so that every definition evaluates.  Integer-valued floats (rounded
    radii) are carried as [Z].  Calls into scipy's optimizers are parameters
    of the development; output on the console is left out.  The two
    accumulators that the radial averager updates in place are also
    followed on a heap of arrays.

    The parser of scan ranges of the processing dialog
    (src/iris/gui/processing_dialog.py) is embedded on lists of characters,
    with Python's [int] as a parameter. *)

From Stdlib Require Import List ZArith QArith Qabs Qround Qminmax Reals.
From Stdlib Require Import Lra Lia Psatz Bool Ascii FunctionalExtensionality.
From Stdlib Require Import Sorting.Sorted.
Import ListNotations.

(* ------------------------------------------------------------------ *)
(** * Helper functions (core.py, lines 10-26) *)

Module Lineshape.
Local Open Scope R_scope.

(** [biexp(x, a, b, c, d, e)] *)
Definition biexp (x a b c d e : R) : R :=
  a * exp (- b * x) + c * exp (- d * x) + e.

(** [Gaussian(x, xc, width_g)]: [exponent = (-(x-xc)**2)/((2*width_g)**2)] *)
Definition Gaussian (x xc width_g : R) : R :=
  let exponent := (- (x - xc) ^ 2) / ((2 * width_g) ^ 2) in
  exp exponent.

(** [Lorentzian(x, xc, width_l)] *)
Definition Lorentzian (x xc width_l : R) : R :=
  let core := ((width_l / 2) ^ 2) / ((x - xc) ^ 2 + (width_l / 2) ^ 2) in
  core.

(** [pseudoVoigt(x, height, xc, width_g, width_l, constant)] *)
Definition pseudoVoigt (x height xc width_g width_l constant : R) : R :=
  height * (0.5 * Gaussian x xc width_g + 0.5 * Lorentzian x xc width_l)
  + constant.

End Lineshape.

(* ------------------------------------------------------------------ *)
(** * Exceptions *)

(** The Python exceptions the core can raise. *)
Inductive exn : Set := IndexError | ValueError | RuntimeError.

Inductive result (A : Type) : Type :=
| Ok (a : A)
| Raise (e : exn).
Arguments Ok {A} a.
Arguments Raise {A} e.

Definition bind {A B} (m : result A) (k : A -> result B) : result B :=
  match m with
  | Ok a => k a
  | Raise e => Raise e
  end.

Notation "'do' x <- m ; k" := (bind m (fun x => k))
  (at level 10, x pattern, m at level 100, k at level 200).

(** A [for] loop whose body may raise, threading the loop state. *)
Fixpoint foldM {A S} (body : S -> A -> result S) (l : list A) (s : S)
  : result S :=
  match l with
  | [] => Ok s
  | a :: l' => do s' <- body s a; foldM body l' s'
  end.

(** A [for] loop that appends one value per iteration. *)
Fixpoint mapM {A B} (f : A -> result B) (l : list A) : result (list B) :=
  match l with
  | [] => Ok []
  | a :: l' => do b <- f a; do bs <- mapM f l'; Ok (b :: bs)
  end.

(* ------------------------------------------------------------------ *)
(** * The numpy primitives the core uses *)

Local Open Scope Q_scope.

Definition Qltb (a b : Q) : bool :=
  match Qcompare a b with Lt => true | _ => false end.

Definition Qgtb (a b : Q) : bool := Qltb b a.

Definition Qofnat (k : nat) : Q := inject_Z (Z.of_nat k).

Definition Qsum (l : list Q) : Q := fold_right Qplus 0 l.

(** [n.linspace(start, stop, num)]: [num] evenly spaced samples, both end
    points included. *)
Definition linspace (start stop : Q) (num : nat) : list Q :=
  match num with
  | O => []
  | S O => [start]
  | _ => let step := (stop - start) / Qofnat (num - 1) in
         map (fun k => start + Qofnat k * step) (seq 0 num)
  end.

(** [n.around(n.sqrt(q), decimals = 0)] for [0 <= q]: the integer nearest
    to the square root, a root exactly half way between two integers going
    to the even one. *)
Definition around_sqrt (q : Q) : Z :=
  let r := Z.sqrt (Qfloor q) in
  match Qcompare q ((inject_Z r + (1 # 2)) ^ 2) with
  | Lt => r
  | Gt => (r + 1)%Z
  | Eq => if Z.even r then r else (r + 1)%Z
  end.

(** [n.unique]: the sorted distinct values. *)
Fixpoint insert_unique (z : Z) (l : list Z) : list Z :=
  match l with
  | [] => [z]
  | y :: l' =>
      match (z ?= y)%Z with
      | Lt => z :: l
      | Eq => l
      | Gt => y :: insert_unique z l'
      end
  end.

Definition unique (l : list Z) : list Z := fold_right insert_unique [] l.

(** [n.ndenumerate]: the entries of a 2-D array with their indices, in
    row-major order. *)
Definition enumerate {A} (l : list A) : list (nat * A) :=
  combine (seq 0 (length l)) l.

Definition ndenumerate (a : list (list Q)) : list (nat * nat * Q) :=
  concat (map (fun ir : nat * list Q =>
                 map (fun jv : nat * Q => (fst ir, fst jv, snd jv))
                     (enumerate (snd ir)))
              (enumerate a)).

(** [a[i, j]] *)
Definition item2 {A} (a : list (list A)) (i j : nat) : result A :=
  match nth_error a i with
  | Some row => match nth_error row j with
                | Some v => Ok v
                | None => Raise IndexError
                end
  | None => Raise IndexError
  end.

(** [n.mean]: not a number on an empty selection. *)
Definition mean (l : list Q) : option Q :=
  match l with
  | [] => None
  | _ => Some (Qsum l / Qofnat (length l))
  end.

(** [1/f] on floats: not finite when [f] is zero or not a number. *)
Definition reciprocal (f : option Q) : option Q :=
  match f with
  | Some m => if Qeq_bool m 0 then None else Some (1 / m)
  | None => None
  end.

(** Element-wise binary operations on arrays of one and two dimensions. *)
Definition map2 {A B C} (f : A -> B -> C) (la : list A) (lb : list B)
  : list C :=
  map (fun ab : A * B => f (fst ab) (snd ab)) (combine la lb).

Definition zip2d {A B C} (f : A -> B -> C) (a : list (list A))
  (b : list (list B)) : list (list C) :=
  map2 (map2 f) a b.

(** [n.meshgrid(x, y)]: [X[i][j] = x[j]] and [Y[i][j] = y[i]], both of
    shape [(len(y), len(x))]. *)
Definition meshgrid (x y : list Q) : list (list Q) * list (list Q) :=
  (map (fun _ => x) y, map (fun yi => map (fun _ => yi) x) y).

(** [n.where] on a 2-D boolean array: the (row, column) index pairs of the
    true entries, in row-major order. *)
Definition where1 (m : list bool) : list nat :=
  map fst (filter snd (enumerate m)).

Definition where2 (m : list (list bool)) : list (nat * nat) :=
  concat (map (fun ir : nat * list bool =>
                 map (fun j => (fst ir, j)) (where1 (snd ir)))
              (enumerate m)).

Definition shape0 (a : list (list Q)) : nat := length a.
Definition shape1 (a : list (list Q)) : nat := length (hd [] a).

(** [arr[n.where(keys == r)] += v] *)
Fixpoint add_where (keys : list Z) (r : Z) (v : Q) (arr : list Q) : list Q :=
  match keys, arr with
  | k :: keys', a :: arr' =>
      (if (k =? r)%Z then a + v else a) :: add_where keys' r v arr'
  | _, _ => arr
  end.

(** [n.argmin]: the index of the first minimum. *)
Fixpoint argmin_from (best : Q) (besti i : nat) (l : list Q) : nat :=
  match l with
  | [] => besti
  | v :: l' =>
      if Qltb v best then argmin_from v i (S i) l'
      else argmin_from best besti (S i) l'
  end.

Definition argmin (l : list Q) : result nat :=
  match l with
  | [] => Raise ValueError
  | v :: l' => Ok (argmin_from v 0 1 l')
  end.

(** [n.arange(start, stop)] on integers. *)
Definition arange (start stop : Z) : list Z :=
  map (fun k => (start + Z.of_nat k)%Z) (seq 0 (Z.to_nat (stop - start))).

(** [a[k]] for an integer [k]: a negative index counts from the end. *)
Definition take1 (a : list Q) (k : Z) : result Q :=
  let len := Z.of_nat (length a) in
  if ((k <? - len) || (len <=? k))%Z then Raise IndexError
  else match nth_error a (Z.to_nat (if (k <? 0)%Z then k + len else k)) with
       | Some v => Ok v
       | None => Raise IndexError
       end.

(** [a[idx]] for an array of integer indices. *)
Definition take (a : list Q) (idx : list Z) : result (list Q) :=
  mapM (take1 a) idx.

(** [a.max()] and [a.min()]. *)
Definition amax (a : list Q) : result Q :=
  match a with
  | [] => Raise ValueError
  | v :: a' => Ok (fold_left Qmax a' v)
  end.

Definition amin (a : list Q) : result Q :=
  match a with
  | [] => Raise ValueError
  | v :: a' => Ok (fold_left Qmin a' v)
  end.

(** [a[-1]] *)
Definition last_item (a : list Q) : result Q :=
  match a with
  | [] => Raise IndexError
  | v :: a' => Ok (last a' v)
  end.

Definition ones_like (a : list Q) : list Q := map (fun _ => 1) a.
Definition zeros_like (a : list Z) : list Q := map (fun _ => 0) a.
Definition ones_like_Z (a : list Z) : list Q := map (fun _ => 1) a.

(** [n.interp(x, xp, fp)], defined by numpy for increasing [xp]:
    one-dimensional linear interpolation of the samples [(xp, fp)] with
    flat extrapolation, [fp[0]] below [xp[0]], [fp[-1]] above [xp[-1]], and
    on the segment [xp[j] <= x < xp[j+1]] the value
    [slope*(x - xp[j]) + fp[j]].  [interp_seg] searches the segment from
    the sample [(x0, f0)] on, with [x0 <= x]. *)
Fixpoint interp_seg (x x0 f0 : Q) (xp fp : list Q) : Q :=
  match xp, fp with
  | x1 :: xp', f1 :: fp' =>
      if Qltb x x1 then (f1 - f0) / (x1 - x0) * (x - x0) + f0
      else interp_seg x x1 f1 xp' fp'
  | _, _ => f0
  end.

Definition interp1 (xp fp : list Q) (x : Q) : Q :=
  match xp, fp with
  | x0 :: xp', f0 :: fp' =>
      if Qltb x x0 then f0 else interp_seg x x0 f0 xp' fp'
  | _, _ => 0
  end.

Definition interp (x xp fp : list Q) : result (list Q) :=
  match xp with
  | [] => Raise ValueError
  | _ => if Nat.eqb (length xp) (length fp) then Ok (map (interp1 xp fp) x)
         else Raise ValueError
  end.

(* ------------------------------------------------------------------ *)
(** * Find center of diffraction pattern (core.py, lines 32-90) *)

(** [circ(xg, yg, rg, im, scalefactor)].  The result is [None] when the
    float it stands for is infinite or not a number. *)
Definition circ (xg yg rg : Q) (im : list (list Q)) (scalefactor : Q)
  : result (option Q) :=
  let s := shape0 im in
  let xgscaled := xg * scalefactor in
  let ygscaled := yg * scalefactor in
  let rgscaled := rg * scalefactor in
  let xMat := fst (meshgrid (linspace 1 (Qofnat s) s) (linspace 1 (Qofnat s) s)) in
  let yMat := snd (meshgrid (linspace 1 (Qofnat s) s) (linspace 1 (Qofnat s) s)) in
  let residual :=
    zip2d (fun x y => (x - xgscaled) ^ 2 + (y - ygscaled) ^ 2 - rgscaled ^ 2)
          xMat yMat in
  let xyvals :=
    where2 (zip2d (fun res y => Qltb res 10 && Qgtb y 550) residual yMat) in
  do sampled <- mapM (fun ab : nat * nat => item2 im (fst ab) (snd ab)) xyvals;
  let ftemp := mean sampled in
  Ok (reciprocal ftemp).

(** The default value of [circ]'s [scalefactor]. *)
Definition circ_scalefactor : Q := 20.

Section CenterRefiner.

(** [opt.minimize(f, x0, method = 'Nelder-Mead').x]: some point of the
    search space, or the exception the objective raised. *)
Variable minimize :
  (Q * Q * Q -> result (option Q)) -> Q * Q * Q -> result (Q * Q * Q).

(** The objective [c1 = lambda x: circ(x[0], x[1], x[2], im)]. *)
Definition c1 (im : list (list Q)) (x : Q * Q * Q) : result (option Q) :=
  circ (fst (fst x)) (snd (fst x)) (snd x) im circ_scalefactor.

(** [fCenter(xg, yg, rg, im, scalefactor)] on float guesses, for a nonzero
    [scalefactor]: the division is the true division. *)
Definition fCenter (xg yg rg : Q) (im : list (list Q)) (scalefactor : Q)
  : result (Q * Q * Q) :=
  let xgscaled := xg / scalefactor in
  let ygscaled := yg / scalefactor in
  let rgscaled := rg / scalefactor in
  do x <- minimize (c1 im) (xgscaled, ygscaled, rgscaled);
  let xcenter := fst (fst x) * scalefactor in
  let ycenter := snd (fst x) * scalefactor in
  let rcenter := snd x * scalefactor in
  let rcenter := rg in
  Ok (xcenter, ycenter, rcenter).

(** [fCenter(xg, yg, rg, im, scalefactor)] on the integer guesses of its
    docstring, with an integer [scalefactor] as the default 20 is:
    [n.array([xg, yg, rg])] is an integer array and, in Python 2, its
    division by an integer is the floor division.  The optimizer works on
    floats, so the products with [scalefactor] are floats; [rcenter] is the
    integer guess. *)
Definition fCenter_int (xg yg rg : Z) (im : list (list Q)) (scalefactor : Z)
  : result (Q * Q * Z) :=
  let xgscaled := (xg / scalefactor)%Z in
  let ygscaled := (yg / scalefactor)%Z in
  let rgscaled := (rg / scalefactor)%Z in
  do x <- minimize (c1 im)
            (inject_Z xgscaled, inject_Z ygscaled, inject_Z rgscaled);
  let xcenter := fst (fst x) * inject_Z scalefactor in
  let ycenter := snd (fst x) * inject_Z scalefactor in
  let rcenter := snd x * inject_Z scalefactor in
  let rcenter := rg in
  Ok (xcenter, ycenter, rcenter).

End CenterRefiner.

(* ------------------------------------------------------------------ *)
(** * Radial averaging (core.py, lines 96-159) *)

(** The body of the loop over [n.ndenumerate(image)]; the loop state is
    [(accumulation, bincount)]. *)
Definition bin_pixel (R : list (list Z)) (unique_radii : list Z) (center0 : Q)
  (st : list Q * list Q) (px : nat * nat * Q) : result (list Q * list Q) :=
  let i := fst (fst px) in
  let j := snd (fst px) in
  let value := snd px in
  if Qltb (Qofnat i) center0 then Ok st
  else
    do r <- item2 R i j;
    Ok (add_where unique_radii r value (fst st),
        add_where unique_radii r 1 (snd st)).

(** [radialAverage(image, center)]; [center] is the list [[xc, yc]].  The
    permutation of [intensity] by [argsort] is dead code and the second
    [around] acts on integers, so neither appears. *)
Definition radialAverage (image : list (list Q)) (center : list Q)
  : result (list Z * list Q) :=
  match center with
  | [xc; yc] =>
      let x := linspace 0 (Qofnat (shape0 image)) (shape0 image) in
      let y := linspace 0 (Qofnat (shape1 image)) (shape1 image) in
      let X := fst (meshgrid x y) in
      let Y := snd (meshgrid x y) in
      let R := zip2d (fun x y => around_sqrt ((x - xc) ^ 2 + (y - yc) ^ 2))
                     X Y in
      let radius := concat R in
      let unique_radii := unique radius in
      let accumulation := zeros_like unique_radii in
      let bincount := ones_like_Z unique_radii in
      do st <- foldM (bin_pixel R unique_radii xc) (ndenumerate image)
                     (accumulation, bincount);
      Ok (unique_radii, map2 Qdiv (fst st) (snd st))
  | _ => Raise ValueError
  end.

(** ** The averager on a heap of arrays

    [radialAverage] reads its [center] argument, a list object that the
    caller may share or that is the default object [[512, 512]] created
    when the function is defined, and it updates its two accumulators in
    place.  The heap holds the lists and one-dimensional arrays of a run,
    by address; what earlier calls allocated stays on it.  The [beamblock]
    argument is never read. *)
Definition heap : Type := list (list Q).

Definition load (h : heap) (p : nat) : list Q := nth p h [].

Fixpoint store (p : nat) (a : list Q) (h : heap) : heap :=
  match h, p with
  | [], _ => []
  | _ :: h', O => a :: h'
  | b :: h', S p' => b :: store p' a h'
  end.

(** A new array is allocated at a fresh address. *)
Definition alloc (a : list Q) (h : heap) : nat * heap := (length h, h ++ [a]).

(** The body of the loop over [n.ndenumerate(image)]: [center[0]] reads the
    list at address [center]; the two [+=] write the arrays at addresses
    [accumulation] and [bincount]. *)
Definition bin_pixel_heap (R : list (list Z)) (unique_radii : list Z)
  (center accumulation bincount : nat) (h : heap) (px : nat * nat * Q)
  : result unit * heap :=
  let i := fst (fst px) in
  let j := snd (fst px) in
  let value := snd px in
  match load h center with
  | [] => (Raise IndexError, h)
  | center0 :: _ =>
      if Qltb (Qofnat i) center0 then (Ok tt, h)
      else
        match item2 R i j with
        | Raise e => (Raise e, h)
        | Ok r =>
            let h :=
              store accumulation
                (add_where unique_radii r value (load h accumulation)) h in
            let h :=
              store bincount
                (add_where unique_radii r 1 (load h bincount)) h in
            (Ok tt, h)
        end
  end.

(** A [for] loop whose body works on the heap and may raise. *)
Fixpoint for_each {A} (body : heap -> A -> result unit * heap) (l : list A)
  (h : heap) : result unit * heap :=
  match l with
  | [] => (Ok tt, h)
  | a :: l' =>
      match body h a with
      | (Ok _, h') => for_each body l' h'
      | (Raise e, h') => (Raise e, h')
      end
  end.

(** [radialAverage(image, center)] from a heap, [center] being the address
    of the list: the result of the call and the heap it leaves. *)
Definition radialAverage_heap (image : list (list Q)) (center : nat)
  (h : heap) : result (list Z * list Q) * heap :=
  match load h center with
  | [xc; yc] =>
      let x := linspace 0 (Qofnat (shape0 image)) (shape0 image) in
      let y := linspace 0 (Qofnat (shape1 image)) (shape1 image) in
      let X := fst (meshgrid x y) in
      let Y := snd (meshgrid x y) in
      let R := zip2d (fun x y => around_sqrt ((x - xc) ^ 2 + (y - yc) ^ 2))
                     X Y in
      let radius := concat R in
      let unique_radii := unique radius in
      let (accumulation, h) := alloc (zeros_like unique_radii) h in
      let (bincount, h) := alloc (ones_like_Z unique_radii) h in
      match for_each
              (bin_pixel_heap R unique_radii center accumulation bincount)
              (ndenumerate image) h with
      | (Ok _, h) =>
          (Ok (unique_radii,
               map2 Qdiv (load h accumulation) (load h bincount)), h)
      | (Raise e, h) => (Raise e, h)
      end
  | _ => (Raise ValueError, h)
  end.

(* ------------------------------------------------------------------ *)
(** * Inelastic scattering background (core.py, lines 164-206) *)

(** [n.asarray(points)[:,0]]: an empty list of points has no columns. *)
Definition first_column (points : list (Q * Q)) : result (list Q) :=
  match points with
  | [] => Raise IndexError
  | _ => Ok (map fst points)
  end.

(** The chunk of [xdata] and [ydata] around one feature (body of the first
    loop). *)
Definition chunk_of (xdata ydata : list Q) (chunk_size : Z) (feature : Q)
  : result (list Q * list Q) :=
  do ind <- argmin (map (fun x => Qabs (x - feature)) xdata);
  let chunk_ind :=
    arange (Z.of_nat ind - chunk_size) (Z.of_nat ind + chunk_size + 1) in
  do xchunk <- take xdata chunk_ind;
  do ychunk <- take ydata chunk_ind;
  Ok (xchunk, ychunk).

(** [parameter_guesses] of the second loop. *)
Definition parameter_guesses (xchunk ychunk : list Q) : result (list Q) :=
  do ymax <- amax ychunk;
  do ymin <- amin ychunk;
  do xmax <- amax xchunk;
  do xmin <- amin xchunk;
  Ok [ymax - ymin; (xmax - xmin) / 2; 1; 1; ymin].

Section Background.

(** [opt.curve_fit(pseudoVoigt, xchunk, ychunk, p0 = p0)[0]]: the fitted
    parameters, or [None] when the least-squares fit does not converge,
    which scipy reports with [RuntimeError].  The fit has five parameters:
    on a chunk of fewer than five samples scipy raises [TypeError] instead,
    which is outside this embedding. *)
Variable curve_fit : list Q -> list Q -> list Q -> option (list Q).

(** The constants of one chunk (body of the second loop). *)
Definition chunk_constants (chunk : list Q * list Q) : result (list Q) :=
  let xchunk := fst chunk in
  let ychunk := snd chunk in
  do p0 <- parameter_guesses xchunk ychunk;
  match curve_fit xchunk ychunk p0 with
  | None => Raise RuntimeError
  | Some opt_parameters =>
      do c <- last_item opt_parameters;
      Ok (map (fun o => c * o) (ones_like xchunk))
  end.

(** [inelasticBGSubstract(xdata, ydata, points, chunk_size)] *)
Definition inelasticBGSubstract (xdata ydata : list Q)
  (points : list (Q * Q)) (chunk_size : Z) : result (list Q * list Q) :=
  do xfeatures <- first_column points;
  do chunks <- mapM (chunk_of xdata ydata chunk_size) xfeatures;
  do constants <- mapM chunk_constants chunks;
  let constant_background := concat constants in
  let x_background := concat (map fst chunks) in
  do background <- interp xdata x_background constant_background;
  Ok (xdata, background).

End Background.

(* ------------------------------------------------------------------ *)
(** * Scan ranges (iris/gui/processing_dialog.py, lines 339-387) *)

(** [s.replace(' ', '')] *)
Definition remove_spaces (s : list ascii) : list ascii :=
  filter (fun c => negb (Ascii.eqb c " "%char)) s.

(** [s.split(sep)] for a separator of one character: one more part than
    there are separators. *)
Fixpoint split_on (sep : ascii) (s : list ascii) : list (list ascii) :=
  match s with
  | [] => [[]]
  | c :: s' =>
      if Ascii.eqb c sep then [] :: split_on sep s'
      else match split_on sep s' with
           | part :: parts => (c :: part) :: parts
           | [] => [[c]]
           end
  end.

Section ParseRange.

(** [int(elem)]: the integer a string denotes, or [None] when it raises
    [ValueError]. *)
Variable int : list ascii -> option Z.

(** The body of the loop of [parse_range]: the integers one element adds.
    An element that is not an integer must split at [':'] into exactly two
    integers, the bounds of a range that includes both. *)
Definition parse_element (elem : list ascii) : result (list Z) :=
  match int elem with
  | Some fl => Ok [fl]
  | None =>
      match map int (split_on ":"%char elem) with
      | [Some start; Some stop] => Ok (arange start (stop + 1))
      | _ => Raise ValueError
      end
  end.

(** [parse_range(range_str)] *)
Definition parse_range (range_str : list ascii) : result (list Z) :=
  let range_str := remove_spaces range_str in
  match range_str with
  | [] => Ok []
  | _ =>
      let elements := split_on ","%char range_str in
      match elements with
      | [] => Ok []
      | _ =>
          do iterable <-
            foldM (fun iterable elem =>
                     do xs <- parse_element elem; Ok (iterable ++ xs))
                  elements [];
          Ok (unique iterable)
      end
  end.

End ParseRange.

(* ------------------------------------------------------------------ *)
(** * Vocabulary of the statements and test data *)

(** An optimizer that moves the point it is given, radius included. *)
Definition shifting_minimize (f : Q * Q * Q -> result (option Q))
  (x0 : Q * Q * Q) : result (Q * Q * Q) :=
  Ok (fst (fst x0) + 1, snd (fst x0) - 1, snd x0 * 3).

(** [where2] on the rows of an array that start at row [k]. *)
Definition where2_from (k : nat) (m : list (list bool)) : list (nat * nat) :=
  concat (map (fun ir : nat * list bool =>
                 map (fun j => (fst ir, j)) (where1 (snd ir)))
              (combine (seq k (length m)) m)).

(** The cost as the specification words it (section 4.2): the sampled
    pixels are those whose squared distance to the trial center differs
    from the squared trial radius by less than 10, in the rows beyond the
    cutoff.  To be compared with [circ]. *)
Definition circ_as_specified (xg yg rg : Q) (im : list (list Q))
  (scalefactor : Q) : result (option Q) :=
  let s := shape0 im in
  let lin := linspace 1 (Qofnat s) s in
  let differs_by (x y : Q) :=
    Qabs ((x - xg * scalefactor) ^ 2 + (y - yg * scalefactor) ^ 2
          - (rg * scalefactor) ^ 2) in
  let xyvals :=
    where2 (map (fun y => map (fun x => Qltb (differs_by x y) 10
                                        && Qgtb y 550) lin) lin) in
  do sampled <- mapM (fun ab : nat * nat => item2 im (fst ab) (snd ab)) xyvals;
  Ok (reciprocal (mean sampled)).

(** The test [circ] applies to the pixel of row [i] and column [j], whose
    coordinates on its grid are [(j + 1, i + 1)], for a circle of center
    [(cx, cy)] and radius [r]. *)
Definition circ_samples (cx cy r : Q) (px : nat * nat * Q) : bool :=
  Qltb ((Qofnat (snd (fst px)) + 1 - cx) ^ 2
        + (Qofnat (fst (fst px)) + 1 - cy) ^ 2 - r ^ 2) 10
  && Qgtb (Qofnat (fst (fst px)) + 1) 550.

(** The cost of the circle of center [(cx, cy)] and radius [r], in pixels:
    the reciprocal of the mean intensity of the pixels that pass the test
    of [circ]. *)
Definition sampled_cost (im : list (list Q)) (cx cy r : Q) : option Q :=
  reciprocal (mean (map snd (filter (circ_samples cx cy r) (ndenumerate im)))).

(** A reading of decimal digits with an optional minus sign, to run
    [parse_range] on. *)
Definition digit_value (c : ascii) : option Z :=
  let n := nat_of_ascii c in
  if ((48 <=? n) && (n <=? 57))%nat then Some (Z.of_nat (n - 48)) else None.

Fixpoint digits_value (acc : Z) (s : list ascii) : option Z :=
  match s with
  | [] => Some acc
  | c :: s' => match digit_value c with
               | Some d => digits_value (10 * acc + d) s'
               | None => None
               end
  end.

Definition decimal_int (s : list ascii) : option Z :=
  match s with
  | [] => None
  | c :: s' =>
      if Ascii.eqb c "-"%char
      then match s' with
           | [] => None
           | _ => option_map Z.opp (digits_value 0 s')
           end
      else digits_value 0 s
  end.

(** An image of [a] rows and [b] columns. *)
Definition rectangular (a b : nat) (im : list (list Q)) : Prop :=
  length im = a /\ Forall (fun row => length row = b) im.

(** An [n] by [n] image. *)
Definition square (n : nat) (im : list (list Q)) : Prop :=
  length im = n /\ Forall (fun row => length row = n) im.

(** The coordinate the averager gives to index [k] of an axis of [n]
    pixels: entry [k] of [n.linspace(0, n, n)]. *)
Definition axis_coordinate (n k : nat) : Q :=
  nth k (linspace 0 (Qofnat n) n) 0.

(** The entry [R[i, j]] for a pixel of an [n] by [n] image. *)
Definition pixel_radius (n : nat) (xc yc : Q) (px : nat * nat * Q) : Z :=
  around_sqrt ((axis_coordinate n (snd (fst px)) - xc) ^ 2
               + (axis_coordinate n (fst (fst px)) - yc) ^ 2).

(** The pixels that pass the test [i < center[0]] of the loop. *)
Definition contributes (center0 : Q) (px : nat * nat * Q) : bool :=
  negb (Qltb (Qofnat (fst (fst px))) center0).

(** The pixels accumulated under radius [r]. *)
Definition bin_pixels (n : nat) (im : list (list Q)) (xc yc : Q) (r : Z)
  : list (nat * nat * Q) :=
  filter (fun px => contributes xc px && (r =? pixel_radius n xc yc px)%Z)
         (ndenumerate im).

(** What a run of the loop adds to one cell: the weights [w] of the selected
    pixels, added in loop order to the initial content [a0]. *)
Definition tally (sel : nat * nat * Q -> bool) (w : nat * nat * Q -> Q)
  (ps : list (nat * nat * Q)) (a0 : Q) : Q :=
  fold_left (fun a px => if sel px then a + w px else a) ps a0.

Definition test_image3 : list (list Q) := [[1; 2; 3]; [4; 5; 6]; [7; 8; 9]].

(** The window of a feature reaches past the end of the curve, or before
    its start: [ind] is the index nearest to the feature. *)
Definition overruns_right (xdata : list Q) (chunk_size : Z) (feature : Q)
  : bool :=
  match argmin (map (fun x => Qabs (x - feature)) xdata) with
  | Ok ind => (Z.of_nat (length xdata) <=? Z.of_nat ind + chunk_size)%Z
  | Raise _ => false
  end.

Definition overruns_left (xdata : list Q) (chunk_size : Z) (feature : Q)
  : bool :=
  match argmin (map (fun x => Qabs (x - feature)) xdata) with
  | Ok ind => (Z.of_nat ind - chunk_size <? 0)%Z
  | Raise _ => false
  end.

(** The spec's sentence on windows out of bounds (section 4.4, Failure). *)
Definition every_overrun_raises : Prop :=
  forall (curve_fit : list Q -> list Q -> list Q -> option (list Q))
         (xdata ydata : list Q) (points : list (Q * Q)) (chunk_size : Z)
         (feature : Q),
    length ydata = length xdata -> (0 <= chunk_size)%Z ->
    In feature (map fst points) ->
    overruns_left xdata chunk_size feature
    || overruns_right xdata chunk_size feature = true ->
    inelasticBGSubstract curve_fit xdata ydata points chunk_size
    = Raise IndexError.

(** A fit that converges at once: it returns its initial guess. *)
Definition immediate_fit (xchunk ychunk p0 : list Q) : option (list Q) :=
  Some p0.

(** The samples [a[ind - chunk_size], ..., a[ind + chunk_size]] of a window
    that lies within the array. *)
Definition window (a : list Q) (ind : nat) (chunk_size : Z) : list Q :=
  firstn (Z.to_nat (2 * chunk_size + 1))
         (skipn (Z.to_nat (Z.of_nat ind - chunk_size)) a).

(** The fit of a chunk converges with constant term [c]. *)
Definition fit_constant
  (curve_fit : list Q -> list Q -> list Q -> option (list Q))
  (xchunk ychunk : list Q) (c : Q) : Prop :=
  forall p0, parameter_guesses xchunk ychunk = Ok p0 ->
    exists ps, curve_fit xchunk ychunk p0 = Some ps /\ last_item ps = Ok c.

Definition demo_xdata : list Q := [0; 1; 2; 3; 4; 5; 6; 7; 8; 9; 10; 11].
Definition demo_ydata : list Q := [5; 7; 9; 7; 5; 4; 2; 4; 6; 4; 2; 3].

(** A 552 by 552 image of ones, but for the value 43 at row 551, column
    299, the pixel at the trial center of the evaluation below. *)
Definition ring_image : list (list Q) :=
  repeat (repeat 1 552%nat) 551%nat
  ++ [repeat 1 299%nat ++ [43] ++ repeat 1 252%nat].


(* ------------------------------------------------------------------ *)
(** * Properties of the lineshape library *)

Section LineshapeFacts.
Import Lineshape.
Local Open Scope R_scope.

Lemma Gaussian_center (xc width_g : R) : Gaussian xc xc width_g = 1.
Proof.
  unfold Gaussian; cbv zeta.
  replace (- (xc - xc) ^ 2 / (2 * width_g) ^ 2) with 0.
  - apply exp_0.
  - unfold Rdiv. replace (xc - xc) with 0 by ring. ring.
Qed.

Lemma Lorentzian_center (xc width_l : R) :
  width_l <> 0 -> Lorentzian xc xc width_l = 1.
Proof.
  intros Hw. unfold Lorentzian; cbv zeta.
  replace ((xc - xc) ^ 2 + (width_l / 2) ^ 2) with ((width_l / 2) ^ 2)
    by ring.
  field. exact Hw.
Qed.

(** C1: evaluated at its own center, with nonzero widths, the pseudo-Voigt
    profile is exactly [height + constant]. *)
Theorem pseudoVoigt_at_center (height xc width_g width_l constant : R) :
  width_g <> 0 -> width_l <> 0 ->
  pseudoVoigt xc height xc width_g width_l constant = height + constant.
Proof.
  intros _ Hl. unfold pseudoVoigt.
  rewrite Gaussian_center, (Lorentzian_center _ _ Hl). lra.
Qed.

Lemma pseudoVoigt_at_center_witness :
  (1 <> 0 /\ 1 <> 0) /\ pseudoVoigt 3 2 3 1 1 5 = 2 + 5.
Proof.
  split; [split; lra | apply (pseudoVoigt_at_center 2 3 1 1 5); lra].
Defined.

End LineshapeFacts.

(* ------------------------------------------------------------------ *)
(** * Properties of the center refiner *)

Lemma Qltb_lt (a b : Q) : Qltb a b = true <-> a < b.
Proof.
  unfold Qltb. rewrite Qlt_alt. destruct (Qcompare a b); intuition congruence.
Qed.

Lemma Qltb_ge (a b : Q) : Qltb a b = false <-> b <= a.
Proof.
  rewrite <- Bool.not_true_iff_false, Qltb_lt. split.
  - apply Qnot_lt_le.
  - apply Qle_not_lt.
Qed.

Lemma Qltb_comp (a a' b b' : Q) :
  a == a' -> b == b' -> Qltb a b = Qltb a' b'.
Proof. intros Ha Hb. unfold Qltb. now rewrite Ha, Hb. Qed.

Lemma map2_cons {A B C} (f : A -> B -> C) a la b lb :
  map2 f (a :: la) (b :: lb) = f a b :: map2 f la lb.
Proof. reflexivity. Qed.

(** A mask computed from an intermediate array only depends on what the
    test makes of the intermediate values. *)
Lemma map2_mask_ext {A B C} (P : C -> B -> bool) (f g : A -> B -> C) :
  (forall a b, P (f a b) b = P (g a b) b) ->
  forall la lb, map2 P (map2 f la lb) lb = map2 P (map2 g la lb) lb.
Proof.
  intros H la. induction la as [|a la IH]; intros [|b lb]; try reflexivity.
  rewrite !map2_cons. now rewrite H, IH.
Qed.

Lemma zip2d_mask_ext {A B C} (P : C -> B -> bool) (f g : A -> B -> C) :
  (forall a b, P (f a b) b = P (g a b) b) ->
  forall la lb, zip2d P (zip2d f la lb) lb = zip2d P (zip2d g la lb) lb.
Proof.
  intros H la. unfold zip2d.
  induction la as [|a la IH]; intros [|b lb]; try reflexivity.
  rewrite !map2_cons. now rewrite (map2_mask_ext P f g H), IH.
Qed.

(** [circ] only sees the products of its coordinates with the scale
    factor. *)
Lemma circ_scaled_ext (x y r x' y' r' sf sf' : Q) (im : list (list Q)) :
  x * sf == x' * sf' -> y * sf == y' * sf' -> r * sf == r' * sf' ->
  circ x y r im sf = circ x' y' r' im sf'.
Proof.
  intros Hx Hy Hr. unfold circ; cbv zeta.
  rewrite (zip2d_mask_ext (fun res y0 => Qltb res 10 && Qgtb y0 550)
             (fun x0 y0 => (x0 - x * sf) ^ 2 + (y0 - y * sf) ^ 2 - (r * sf) ^ 2)
             (fun x0 y0 => (x0 - x' * sf') ^ 2 + (y0 - y' * sf') ^ 2
                           - (r' * sf') ^ 2)).
  - reflexivity.
  - intros a b. f_equal. apply Qltb_comp; [|reflexivity].
    now rewrite Hx, Hy, Hr.
Qed.

(** C2: whatever point the optimizer returns, [fCenter] returns its first
    two coordinates rescaled and, as radius, the original guess [rg]. *)
Theorem fCenter_radius_is_guess
  (minimize : (Q * Q * Q -> result (option Q)) -> Q * Q * Q
              -> result (Q * Q * Q))
  (xg yg rg : Q) (im : list (list Q)) (scalefactor : Q) (p : Q * Q * Q) :
  minimize (c1 im) (xg / scalefactor, yg / scalefactor, rg / scalefactor)
    = Ok p ->
  fCenter minimize xg yg rg im scalefactor
    = Ok (fst (fst p) * scalefactor, snd (fst p) * scalefactor, rg).
Proof. intros H. unfold fCenter; cbv zeta. now rewrite H. Qed.

Lemma fCenter_radius_is_guess_witness :
  shifting_minimize (c1 [[1; 2]; [3; 4]]) (40 / 20, 60 / 20, 100 / 20)
  = Ok (40 / 20 + 1, 60 / 20 - 1, 100 / 20 * 3)
  /\ fCenter shifting_minimize 40 60 100 [[1; 2]; [3; 4]] 20
     = Ok ((40 / 20 + 1) * 20, (60 / 20 - 1) * 20, 100).
Proof.
  split; [reflexivity|].
  exact (fCenter_radius_is_guess shifting_minimize 40 60 100 [[1; 2]; [3; 4]]
           20 (40 / 20 + 1, 60 / 20 - 1, 100 / 20 * 3) eq_refl).
Defined.

(* ------------------------------------------------------------------ *)
(** * Properties of the radial averager *)

Lemma nth_error_map2 {A B C} (f : A -> B -> C) la lb i :
  nth_error (map2 f la lb) i
  = match nth_error la i, nth_error lb i with
    | Some a, Some b => Some (f a b)
    | _, _ => None
    end.
Proof.
  revert lb i. induction la as [|a la IH]; intros [|b lb] [|i]; cbn;
    try reflexivity.
  - now destruct (nth_error la i).
  - apply IH.
Qed.

Lemma linspace_length (a b : Q) (n : nat) : length (linspace a b n) = n.
Proof.
  destruct n as [|[|n]]; try reflexivity.
  unfold linspace. now rewrite length_map, length_seq.
Qed.

Lemma item2_meshgrid {C} (f : Q -> Q -> C) (x y : list Q) (i j : nat) :
  (i < length y)%nat -> (j < length x)%nat ->
  item2 (zip2d f (fst (meshgrid x y)) (snd (meshgrid x y))) i j
  = Ok (f (nth j x 0) (nth i y 0)).
Proof.
  intros Hi Hj. unfold item2, zip2d, meshgrid; cbn [fst snd].
  rewrite nth_error_map2, !nth_error_map.
  rewrite (nth_error_nth' y 0 Hi); cbn [option_map].
  rewrite nth_error_map2, nth_error_map.
  now rewrite (nth_error_nth' x 0 Hj).
Qed.

Lemma in_combine_seq {A} (l : list A) (s k : nat) (a : A) :
  In (k, a) (combine (seq s (length l)) l) ->
  (s <= k)%nat /\ nth_error l (k - s) = Some a.
Proof.
  revert s. induction l as [|b l IH]; intros s; cbn; [tauto|].
  intros [H | H].
  - injection H as -> ->. rewrite Nat.sub_diag. split; [lia | reflexivity].
  - apply IH in H. destruct H as [Hle Hn]. split; [lia|].
    replace (k - s)%nat with (S (k - S s)) by lia. exact Hn.
Qed.

Lemma in_enumerate {A} (l : list A) (k : nat) (a : A) :
  In (k, a) (enumerate l) -> nth_error l k = Some a.
Proof.
  intros H. apply in_combine_seq in H. destruct H as [_ H].
  now rewrite Nat.sub_0_r in H.
Qed.

Lemma in_ndenumerate (im : list (list Q)) (px : nat * nat * Q) :
  In px (ndenumerate im) ->
  exists row, nth_error im (fst (fst px)) = Some row
              /\ nth_error row (snd (fst px)) = Some (snd px).
Proof.
  unfold ndenumerate. rewrite in_concat.
  intros [l [Hl Hpx]]. apply in_map_iff in Hl.
  destruct Hl as [[i row] [<- Hir]]. cbn [fst snd] in Hpx.
  apply in_map_iff in Hpx. destruct Hpx as [[j v] [<- Hjv]]. cbn [fst snd].
  exists row. split; now apply in_enumerate.
Qed.

Lemma in_ndenumerate_square (n : nat) (im : list (list Q))
  (px : nat * nat * Q) :
  square n im -> In px (ndenumerate im) ->
  (fst (fst px) < n)%nat /\ (snd (fst px) < n)%nat.
Proof.
  intros [Hlen Hrows] Hpx. apply in_ndenumerate in Hpx.
  destruct Hpx as [row [Hrow Hv]]. split.
  - rewrite <- Hlen. apply nth_error_Some. congruence.
  - rewrite Forall_forall in Hrows.
    rewrite <- (Hrows row (nth_error_In _ _ Hrow)).
    apply nth_error_Some. congruence.
Qed.

Lemma shape1_square (n : nat) (im : list (list Q)) :
  square n im -> shape1 im = n.
Proof.
  intros [Hlen Hrows]. unfold shape1. destruct im as [|row im]; cbn in *.
  - exact Hlen.
  - now inversion Hrows.
Qed.

(** For a square image every pixel of the loop finds its entry of [R]. *)
Lemma item2_R_square (n : nat) (im : list (list Q)) (xc yc : Q)
  (px : nat * nat * Q) :
  square n im -> In px (ndenumerate im) ->
  let x := linspace 0 (Qofnat (shape0 im)) (shape0 im) in
  let y := linspace 0 (Qofnat (shape1 im)) (shape1 im) in
  item2 (zip2d (fun x y => around_sqrt ((x - xc) ^ 2 + (y - yc) ^ 2))
               (fst (meshgrid x y)) (snd (meshgrid x y)))
        (fst (fst px)) (snd (fst px))
  = Ok (pixel_radius n xc yc px).
Proof.
  intros Hsq Hpx x y. subst x y.
  destruct (in_ndenumerate_square n im px Hsq Hpx) as [Hi Hj].
  rewrite (shape1_square n im Hsq).
  unfold shape0. rewrite (proj1 Hsq).
  rewrite item2_meshgrid by (now rewrite linspace_length).
  reflexivity.
Qed.

Lemma map2_ext {A B C} (f g : A -> B -> C) la lb :
  (forall a b, f a b = g a b) -> map2 f la lb = map2 g la lb.
Proof. intros H. unfold map2. apply map_ext. intros [a b]. apply H. Qed.

Lemma map2_snd_id {A B} (la : list A) (lb : list B) :
  length lb = length la -> map2 (fun _ b => b) la lb = lb.
Proof.
  revert lb. induction la as [|a la IH]; intros [|b lb] H; try discriminate;
    try reflexivity.
  rewrite map2_cons. f_equal. apply IH. now injection H.
Qed.

Lemma add_where_length keys r v arr :
  length (add_where keys r v arr) = length arr.
Proof.
  revert arr. induction keys as [|k keys IH]; intros [|a arr]; cbn;
    try reflexivity.
  now rewrite IH.
Qed.

Lemma map2_add_where {C} (g : Z -> Q -> C) keys r v arr :
  map2 g keys (add_where keys r v arr)
  = map2 (fun k a => g k (if (k =? r)%Z then a + v else a)) keys arr.
Proof.
  revert arr. induction keys as [|k keys IH]; intros [|a arr];
    try reflexivity.
  cbn [add_where]. rewrite !map2_cons. now rewrite IH.
Qed.

Lemma tally_cons sel w px ps a :
  tally sel w (px :: ps) a = tally sel w ps (if sel px then a + w px else a).
Proof. reflexivity. Qed.

(** The loop as a whole: each cell receives the tally of the pixels that
    pass the row test and whose radius is the key of the cell. *)
Lemma foldM_bin_pixel (R : list (list Z)) (keys : list Z) (c0 : Q)
  (rad : nat * nat * Q -> Z) (ps : list (nat * nat * Q)) :
  (forall px, In px ps -> item2 R (fst (fst px)) (snd (fst px)) = Ok (rad px)) ->
  forall acc cnt,
    length acc = length keys -> length cnt = length keys ->
    foldM (bin_pixel R keys c0) ps (acc, cnt)
    = Ok (map2 (fun k a =>
                  tally (fun px => contributes c0 px && (k =? rad px)%Z)
                        snd ps a) keys acc,
          map2 (fun k c =>
                  tally (fun px => contributes c0 px && (k =? rad px)%Z)
                        (fun _ => 1) ps c) keys cnt).
Proof.
  induction ps as [|px ps IH]; intros HR acc cnt Ha Hc.
  - cbn. now rewrite !map2_snd_id.
  - assert (HR' : forall q, In q ps ->
                    item2 R (fst (fst q)) (snd (fst q)) = Ok (rad q))
      by (intros q Hq; apply HR; now right).
    cbn [foldM]. unfold bin_pixel at 1.
    destruct (Qltb (Qofnat (fst (fst px))) c0) eqn:Hskip; cbn [bind].
    + rewrite (IH HR' acc cnt Ha Hc).
      f_equal. f_equal; apply map2_ext; intros k a; rewrite tally_cons;
        unfold contributes; now rewrite Hskip.
    + rewrite (HR px (or_introl eq_refl)). cbn [bind fst snd].
      rewrite (IH HR') by (rewrite add_where_length; assumption).
      rewrite !map2_add_where.
      f_equal. f_equal; apply map2_ext; intros k a; rewrite tally_cons;
        unfold contributes; now rewrite Hskip.
Qed.

Lemma tally_sum sel w ps a0 :
  tally sel w ps a0 == a0 + Qsum (map w (filter sel ps)).
Proof.
  revert a0. induction ps as [|px ps IH]; intros a0.
  - unfold tally, Qsum; cbn [fold_left filter map fold_right]. ring.
  - rewrite tally_cons, IH. cbn [filter].
    destruct (sel px); unfold Qsum; cbn [map fold_right]; ring.
Qed.

Lemma Qsum_ones {A} (l : list A) :
  Qsum (map (fun _ => 1) l) == Qofnat (length l).
Proof.
  induction l as [|a l IH].
  - reflexivity.
  - cbn [map Qsum fold_right length]. fold (Qsum (map (fun _ : A => 1) l)).
    rewrite IH. unfold Qofnat. rewrite Nat2Z.inj_succ, <- Z.add_1_l.
    now rewrite inject_Z_plus.
Qed.

Lemma Qofnat_nonneg (k : nat) : 0 <= Qofnat k.
Proof.
  unfold Qofnat. change 0 with (inject_Z 0). rewrite <- Zle_Qle. lia.
Qed.

Lemma map2_const_r {A B C} (f : A -> B -> C) (c : B) (l : list A) :
  map2 f l (map (fun _ => c) l) = map (fun k => f k c) l.
Proof.
  induction l as [|a l IH]; [reflexivity|].
  cbn [map]. rewrite map2_cons. now rewrite IH.
Qed.

Lemma map2_map_diag {A B C D} (g : B -> C -> D) (f1 : A -> B) (f2 : A -> C)
  (l : list A) :
  map2 g (map f1 l) (map f2 l) = map (fun k => g (f1 k) (f2 k)) l.
Proof.
  induction l as [|a l IH]; [reflexivity|].
  cbn [map]. rewrite map2_cons. now rewrite IH.
Qed.

Lemma Forall2_map_diag {A B} (P : A -> B -> Prop) (h : A -> B) (l : list A) :
  (forall a, In a l -> P a (h a)) -> Forall2 P l (map h l).
Proof.
  induction l as [|a l IH]; intros H; cbn; constructor.
  - apply H. now left.
  - apply IH. intros b Hb. apply H. now right.
Qed.

(** On a square image the averager returns, and its result is the list of
    bins with, for each bin, the quotient of its two tallies. *)
Lemma radialAverage_square (n : nat) (im : list (list Q)) (xc yc : Q) :
  square n im ->
  exists radii,
    radialAverage im [xc; yc]
    = Ok (radii,
          map (fun r =>
                 tally (fun px => contributes xc px
                                  && (r =? pixel_radius n xc yc px)%Z)
                       snd (ndenumerate im) 0
                 / tally (fun px => contributes xc px
                                    && (r =? pixel_radius n xc yc px)%Z)
                         (fun _ => 1) (ndenumerate im) 1)
              radii)
    /\ radii
       = unique (concat
           (zip2d (fun x y => around_sqrt ((x - xc) ^ 2 + (y - yc) ^ 2))
              (fst (meshgrid (linspace 0 (Qofnat (shape0 im)) (shape0 im))
                             (linspace 0 (Qofnat (shape1 im)) (shape1 im))))
              (snd (meshgrid (linspace 0 (Qofnat (shape0 im)) (shape0 im))
                             (linspace 0 (Qofnat (shape1 im)) (shape1 im)))))).
Proof.
  intros Hsq. eexists. split; [|reflexivity].
  unfold radialAverage; cbv zeta.
  rewrite (foldM_bin_pixel _ _ xc (pixel_radius n xc yc)).
  - cbn [bind fst snd]. unfold zeros_like, ones_like_Z.
    now rewrite !map2_const_r, map2_map_diag.
  - intros px Hpx. now apply item2_R_square with (im := im).
  - unfold zeros_like. now rewrite length_map.
  - unfold ones_like_Z. now rewrite length_map.
Qed.

Lemma in_insert_unique (a z : Z) (l : list Z) :
  In a (insert_unique z l) <-> a = z \/ In a l.
Proof.
  induction l as [|y l IH]; cbn.
  - intuition.
  - destruct (Z.compare_spec z y) as [-> | Hlt | Hgt]; cbn.
    + intuition.
    + intuition.
    + rewrite IH. intuition.
Qed.

Lemma in_unique (a : Z) (l : list Z) : In a (unique l) <-> In a l.
Proof.
  induction l as [|z l IH]; cbn; [tauto|].
  rewrite in_insert_unique, IH. intuition.
Qed.

Lemma insert_unique_sorted (z : Z) (l : list Z) :
  StronglySorted Z.lt l -> StronglySorted Z.lt (insert_unique z l).
Proof.
  induction 1 as [|y l Hs IH Hy]; cbn.
  - repeat constructor.
  - destruct (Z.compare_spec z y) as [-> | Hlt | Hgt].
    + now constructor.
    + constructor; [now constructor|].
      constructor; [exact Hlt|].
      rewrite Forall_forall in *. intros b Hb. specialize (Hy b Hb). lia.
    + constructor; [exact IH|].
      rewrite Forall_forall in *. intros b Hb.
      apply in_insert_unique in Hb. destruct Hb as [-> | Hb]; auto.
Qed.

Lemma unique_sorted (l : list Z) : StronglySorted Z.lt (unique l).
Proof.
  induction l as [|z l IH]; cbn.
  - constructor.
  - now apply insert_unique_sorted.
Qed.

(** The integer square root of the floor brackets the root. *)
Lemma sqrt_floor_bounds (q : Q) :
  0 <= q ->
  let s := inject_Z (Z.sqrt (Qfloor q)) in
  0 <= s /\ s * s <= q /\ q < (s + 1) * (s + 1).
Proof.
  intros Hq s.
  assert (Hf : (0 <= Qfloor q)%Z).
  { change 0%Z with (Qfloor 0). now apply Qfloor_resp_le. }
  pose proof (Z.sqrt_spec (Qfloor q) Hf) as [H1 H2].
  pose proof (Z.sqrt_nonneg (Qfloor q)) as H0.
  pose proof (Qfloor_le q) as Hle.
  pose proof (Qlt_floor q) as Hlt.
  subst s. split; [|split].
  - change 0 with (inject_Z 0). now rewrite <- Zle_Qle.
  - rewrite <- inject_Z_mult. eapply Qle_trans; [|exact Hle].
    now rewrite <- Zle_Qle.
  - eapply Qlt_le_trans; [exact Hlt|].
    change 1 with (inject_Z 1). rewrite <- inject_Z_plus, <- inject_Z_mult.
    rewrite <- Zle_Qle. lia.
Qed.

(** [around_sqrt q] is an integer nearest to the square root of [q]: the
    root lies within one half of it. *)
Lemma around_sqrt_nearest (q : Q) :
  0 <= q ->
  let r := inject_Z (around_sqrt q) in
  q <= (r + (1 # 2)) ^ 2 /\ (1 <= r -> (r - (1 # 2)) ^ 2 <= q).
Proof.
  intros Hq. cbv zeta. unfold around_sqrt.
  destruct (sqrt_floor_bounds q Hq) as [H0 [H1 H2]].
  set (s := Z.sqrt (Qfloor q)) in *.
  destruct (Qcompare_spec q ((inject_Z s + (1 # 2)) ^ 2)) as [E | L | G].
  - destruct (Z.even s).
    + split; [rewrite E; apply Qle_refl|]. intros Hr.
      generalize dependent (inject_Z s). intros S HS0 HS1 HS2 E Hr.
      simpl in *. nra.
    + rewrite inject_Z_plus. change (inject_Z 1) with 1.
      generalize dependent (inject_Z s). intros S HS0 HS1 HS2 E.
      simpl in *. split; intros; nra.
  - generalize dependent (inject_Z s). intros S HS0 HS1 HS2 L.
    simpl in *. split; intros; nra.
  - rewrite inject_Z_plus. change (inject_Z 1) with 1.
    generalize dependent (inject_Z s). intros S HS0 HS1 HS2 G.
    simpl in *. split; intros; nra.
Qed.

Lemma around_sqrt_nonneg (q : Q) : (0 <= around_sqrt q)%Z.
Proof.
  unfold around_sqrt.
  pose proof (Z.sqrt_nonneg (Qfloor q)).
  destruct (Qcompare _ _); [destruct (Z.even _)| |]; lia.
Qed.

Lemma in_map2 {A B C} (f : A -> B -> C) la lb c :
  In c (map2 f la lb) -> exists a b, In a la /\ In b lb /\ c = f a b.
Proof.
  unfold map2. rewrite in_map_iff. intros [[a b] [<- H]].
  exists a, b. split; [|split]; [| |reflexivity].
  - eapply in_combine_l; eauto.
  - eapply in_combine_r; eauto.
Qed.

Lemma in_concat_zip2d {A B C} (f : A -> B -> C) X Y c :
  In c (concat (zip2d f X Y)) -> exists a b, c = f a b.
Proof.
  rewrite in_concat. intros [row [Hrow Hc]].
  apply in_map2 in Hrow. destruct Hrow as [xr [yr [_ [_ ->]]]].
  apply in_map2 in Hc. destruct Hc as [a [b [_ [_ ->]]]]. now exists a, b.
Qed.

(** C8: for a square image the averager returns a profile whose radii are
    strictly increasing and non-negative, and which has as many intensities
    as radii. *)
Theorem radialAverage_profile_invariant (n : nat) (im : list (list Q))
  (xc yc : Q) :
  square n im ->
  exists radii intensities,
    radialAverage im [xc; yc] = Ok (radii, intensities)
    /\ StronglySorted Z.lt radii
    /\ Forall (fun r => (0 <= r)%Z) radii
    /\ length radii = length intensities.
Proof.
  intros Hsq.
  destruct (radialAverage_square n im xc yc Hsq) as [radii [H Hr]].
  eexists; eexists. split; [exact H|]. split; [|split].
  - rewrite Hr. apply unique_sorted.
  - rewrite Hr. apply Forall_forall. intros r Hin.
    apply in_unique, in_concat_zip2d in Hin. destruct Hin as [a [b ->]].
    apply around_sqrt_nonneg.
  - now rewrite length_map.
Qed.

Lemma radialAverage_profile_invariant_witness :
  square 3 test_image3
  /\ exists radii intensities,
       radialAverage test_image3 [0; 2] = Ok (radii, intensities)
       /\ StronglySorted Z.lt radii
       /\ Forall (fun r => (0 <= r)%Z) radii
       /\ length radii = length intensities.
Proof.
  assert (Hsq : square 3 test_image3) by (split; [reflexivity | repeat constructor]).
  split; [exact Hsq | exact (radialAverage_profile_invariant 3 test_image3 0 2 Hsq)].
Defined.

Lemma load_app_l (h l : heap) (p : nat) :
  (p < length h)%nat -> load (h ++ l) p = load h p.
Proof. intros H. unfold load. now apply app_nth1. Qed.

Lemma load_new_0 (h : heap) (a b : list Q) : load (h ++ [a; b]) (length h) = a.
Proof. unfold load. rewrite app_nth2, Nat.sub_diag by lia. reflexivity. Qed.

Lemma load_new_1 (h : heap) (a b : list Q) :
  load (h ++ [a; b]) (S (length h)) = b.
Proof.
  unfold load. rewrite app_nth2 by lia.
  replace (S (length h) - length h)%nat with 1%nat by lia. reflexivity.
Qed.

Lemma store_new_0 (h : heap) (a b x : list Q) :
  store (length h) x (h ++ [a; b]) = h ++ [x; b].
Proof. induction h as [|c h IH]; [reflexivity|]. cbn. now rewrite IH. Qed.

Lemma store_new_1 (h : heap) (a b x : list Q) :
  store (S (length h)) x (h ++ [a; b]) = h ++ [a; x].
Proof.
  induction h as [|c h IH]; [reflexivity|].
  simpl. simpl in IH. now rewrite IH.
Qed.

(** The loop on the heap, run with the two accumulators in the last two
    cells, writes to those two cells only, and computes in them what the
    loop on the pair of accumulators computes. *)
Lemma for_each_bin_pixel_heap (R : list (list Z)) (keys : list Z) (xc : Q)
  (rest : list Q) (h : heap) (p : nat) (ps : list (nat * nat * Q)) :
  nth_error h p = Some (xc :: rest) ->
  forall a b,
  exists a' b',
    snd (for_each (bin_pixel_heap R keys p (length h) (S (length h))) ps
           (h ++ [a; b])) = h ++ [a'; b']
    /\ match foldM (bin_pixel R keys xc) ps (a, b) with
       | Ok st =>
           fst (for_each (bin_pixel_heap R keys p (length h) (S (length h)))
                  ps (h ++ [a; b])) = Ok tt
           /\ st = (a', b')
       | Raise e =>
           fst (for_each (bin_pixel_heap R keys p (length h) (S (length h)))
                  ps (h ++ [a; b])) = Raise e
       end.
Proof.
  intros Hp.
  assert (Hlt : (p < length h)%nat) by (apply nth_error_Some; congruence).
  assert (Hc : forall l, load (h ++ l) p = xc :: rest).
  { intros l. rewrite load_app_l by exact Hlt. unfold load.
    now apply nth_error_nth. }
  induction ps as [|px ps IH]; intros a b.
  - exists a, b. cbn. auto.
  - cbn [for_each foldM]. unfold bin_pixel_heap at 1 3 5, bin_pixel at 1.
    cbv zeta. rewrite Hc.
    destruct (Qltb (Qofnat (fst (fst px))) xc).
    + cbn [bind]. apply IH.
    + destruct (item2 R (fst (fst px)) (snd (fst px))) as [r|e].
      * cbn [bind fst snd].
        rewrite load_new_0, store_new_0, load_new_1, store_new_1.
        apply IH.
      * cbn [bind fst snd]. exists a, b. auto.
Qed.

(** A call from a heap returns what the averager returns on the content of
    the center list, and leaves the heap with two more cells. *)
Lemma radialAverage_heap_run (image : list (list Q)) (xc yc : Q) (h : heap)
  (p : nat) :
  nth_error h p = Some [xc; yc] ->
  exists a b,
    radialAverage_heap image p h = (radialAverage image [xc; yc], h ++ [a; b]).
Proof.
  intros Hp. unfold radialAverage_heap, radialAverage, alloc; cbv zeta.
  unfold load at 1. rewrite (nth_error_nth _ _ _ Hp).
  set (R := zip2d _ _ _). set (keys := unique (concat R)).
  rewrite length_app, <- app_assoc. cbn [length app].
  replace (length h + 1)%nat with (S (length h)) by lia.
  destruct (for_each_bin_pixel_heap R keys xc [yc] h p (ndenumerate image) Hp
              (zeros_like keys) (ones_like_Z keys)) as [a' [b' [Hs Hf]]].
  destruct (for_each (bin_pixel_heap R keys p (length h) (S (length h)))
              (ndenumerate image) (h ++ [zeros_like keys; ones_like_Z keys]))
    as [[u|e] h'];
    destruct (foldM (bin_pixel R keys xc) (ndenumerate image)
                (zeros_like keys, ones_like_Z keys)) as [st|e'];
    cbn [fst snd bind] in *; exists a', b'; subst h'.
  - destruct Hf as [_ ->]. cbn [fst snd].
    now rewrite load_new_0, load_new_1.
  - discriminate Hf.
  - destruct Hf as [Hf _]. discriminate Hf.
  - injection Hf as ->. reflexivity.
Qed.

(** C9: two calls with the same image and center lists of the same content
    return the same result, from any two heaps and whatever the addresses
    of the center lists, be it the default object or a list of the caller:
    the result is that of the averager on the image and the content of the
    center alone.  A call leaves every cell that existed before it as it
    was, the center list and what earlier calls allocated included, so a
    second call from the heap that the first leaves repeats its result. *)
Theorem radialAverage_deterministic (image : list (list Q)) (xc yc : Q)
  (h1 h2 : heap) (p1 p2 : nat) :
  nth_error h1 p1 = Some [xc; yc] -> nth_error h2 p2 = Some [xc; yc] ->
  fst (radialAverage_heap image p1 h1) = fst (radialAverage_heap image p2 h2)
  /\ fst (radialAverage_heap image p1 h1) = radialAverage image [xc; yc]
  /\ firstn (length h1) (snd (radialAverage_heap image p1 h1)) = h1
  /\ fst (radialAverage_heap image p1 (snd (radialAverage_heap image p1 h1)))
     = fst (radialAverage_heap image p1 h1).
Proof.
  intros H1 H2.
  destruct (radialAverage_heap_run image xc yc h1 p1 H1) as [a [b E1]].
  destruct (radialAverage_heap_run image xc yc h2 p2 H2) as [a2 [b2 E2]].
  rewrite E1, E2. cbn [fst snd].
  assert (H1' : nth_error (h1 ++ [a; b]) p1 = Some [xc; yc]).
  { rewrite nth_error_app1; [exact H1|]. apply nth_error_Some. congruence. }
  destruct (radialAverage_heap_run image xc yc _ p1 H1') as [a3 [b3 E3]].
  rewrite E3. cbn [fst]. repeat split.
  rewrite firstn_app, Nat.sub_diag, firstn_all. cbn [firstn]. apply app_nil_r.
Qed.

Lemma radialAverage_deterministic_witness :
  (nth_error [[1; 1]] 0 = Some [1; 1]
   /\ nth_error [[512; 512]; [1; 1]; [3; 4; 5]] 1 = Some [1; 1])
  /\ radialAverage_heap test_image3 0 [[1; 1]]
     = (Ok ([1; 2; 3]%Z, [9 # 3; 21 # 4; 9 # 2]),
        [[1; 1]; [9; 21; 9]; [3; 4; 2]])
  /\ radialAverage_heap test_image3 1 [[512; 512]; [1; 1]; [3; 4; 5]]
     = (Ok ([1; 2; 3]%Z, [9 # 3; 21 # 4; 9 # 2]),
        [[512; 512]; [1; 1]; [3; 4; 5]; [9; 21; 9]; [3; 4; 2]])
  /\ fst (radialAverage_heap test_image3 0 [[1; 1]])
     = fst (radialAverage_heap test_image3 1 [[512; 512]; [1; 1]; [3; 4; 5]])
  /\ fst (radialAverage_heap test_image3 0 [[1; 1]])
     = radialAverage test_image3 [1; 1]
  /\ firstn (length [[1; 1]]) (snd (radialAverage_heap test_image3 0 [[1; 1]]))
     = [[1; 1]]
  /\ fst (radialAverage_heap test_image3 0
            (snd (radialAverage_heap test_image3 0 [[1; 1]])))
     = fst (radialAverage_heap test_image3 0 [[1; 1]]).
Proof.
  split; [split; reflexivity|]. split; [reflexivity|]. split; [reflexivity|].
  exact (radialAverage_deterministic test_image3 1 1 [[1; 1]]
           [[512; 512]; [1; 1]; [3; 4; 5]] 0 1 eq_refl eq_refl).
Defined.

(* ------------------------------------------------------------------ *)
(** * Properties of the background subtractor *)

(** A loop all of whose failures are of one kind, and which fails at some
    iteration, fails with that kind. *)
Lemma mapM_raises {A B} (f : A -> result B) (e : exn) (l : list A) (a : A) :
  (forall x e', f x = Raise e' -> e' = e) ->
  In a l -> f a = Raise e -> mapM f l = Raise e.
Proof.
  intros Hall. induction l as [|x l IH]; intros Hin Ha; [contradiction|].
  cbn [mapM]. destruct (f x) as [b|e'] eqn:Hx; cbn [bind].
  - destruct Hin as [-> | Hin]; [congruence|].
    now rewrite (IH Hin Ha).
  - now rewrite (Hall x e' Hx).
Qed.

Lemma take1_raises_IndexError (a : list Q) (k : Z) (e : exn) :
  take1 a k = Raise e -> e = IndexError.
Proof.
  unfold take1. destruct (_ || _); [congruence|].
  destruct (nth_error _ _); congruence.
Qed.

Lemma take_raises_IndexError (a : list Q) (idx : list Z) (e : exn) :
  take a idx = Raise e -> e = IndexError.
Proof.
  unfold take. induction idx as [|k idx IH]; cbn [mapM]; [discriminate|].
  destruct (take1 a k) eqn:Hk; cbn [bind].
  - destruct (mapM (take1 a) idx); cbn [bind]; [discriminate|].
    intros H. apply IH. congruence.
  - intros H. apply (take1_raises_IndexError a k). congruence.
Qed.

Lemma in_arange (start stop k : Z) :
  (start <= k < stop)%Z -> In k (arange start stop).
Proof.
  intros H. unfold arange. apply in_map_iff.
  exists (Z.to_nat (k - start)). split; [lia|].
  apply in_seq. lia.
Qed.

Lemma chunk_of_raises_IndexError (xdata ydata : list Q) (chunk_size : Z)
  (feature : Q) (e : exn) :
  xdata <> [] ->
  chunk_of xdata ydata chunk_size feature = Raise e -> e = IndexError.
Proof.
  intros Hne. unfold chunk_of.
  destruct xdata as [|x0 xdata]; [congruence|]. cbn [map argmin bind].
  destruct (take _ _) eqn:Hx; cbn [bind].
  - destruct (take ydata _) eqn:Hy; cbn [bind]; [discriminate|].
    intros H. injection H as <-. now apply take_raises_IndexError in Hy.
  - intros H. injection H as <-. now apply take_raises_IndexError in Hx.
Qed.

(** A window that starts before index 0 wraps around to the end of the
    curve: for the feature at [x = 1] and a chunk size of 2 the chunk is
    [xdata[[-1, 0, 1, 2, 3]]], which begins with the last sample, and a
    background is returned. *)
Lemma left_overrun_wraps_around :
  overruns_left demo_xdata 2 1 = true
  /\ chunk_of demo_xdata demo_ydata 2 1
     = Ok ([11; 0; 1; 2; 3], [3; 5; 7; 9; 7])
  /\ inelasticBGSubstract immediate_fit demo_xdata demo_ydata [(1, 0)] 2
     = Ok (demo_xdata, [3; 3; 3; 3; 3; 3; 3; 3; 3; 3; 3; 3]).
Proof. repeat split. Qed.

Lemma not_every_overrun_raises : ~ every_overrun_raises.
Proof.
  intros H.
  specialize (H immediate_fit demo_xdata demo_ydata [(1, 0)] 2%Z 1 eq_refl).
  assert (G : inelasticBGSubstract immediate_fit demo_xdata demo_ydata
                [(1, 0)] 2 = Raise IndexError).
  { apply H; [lia | now left | reflexivity]. }
  discriminate G.
Qed.

(** C6, amended: when the window of some feature reaches past the end of
    the curve, no background is returned: the call raises [IndexError]. *)
Theorem right_overrun_raises
  (curve_fit : list Q -> list Q -> list Q -> option (list Q))
  (xdata ydata : list Q) (points : list (Q * Q)) (chunk_size : Z)
  (feature : Q) :
  (0 <= chunk_size)%Z ->
  In feature (map fst points) ->
  overruns_right xdata chunk_size feature = true ->
  inelasticBGSubstract curve_fit xdata ydata points chunk_size
  = Raise IndexError.
Proof.
  intros Hcs Hin Hover. unfold inelasticBGSubstract.
  assert (Hne : xdata <> []).
  { unfold overruns_right in Hover. destruct xdata; [discriminate Hover|].
    discriminate. }
  destruct points as [|p points]; [contradiction|].
  unfold first_column; cbn [bind].
  rewrite (mapM_raises (chunk_of xdata ydata chunk_size) IndexError _ feature);
    [reflexivity | | exact Hin |].
  - intros x e. now apply chunk_of_raises_IndexError.
  - unfold overruns_right in Hover. unfold chunk_of.
    destruct (argmin _) as [ind|]; [|discriminate Hover]. cbn [bind].
    apply Z.leb_le in Hover.
    unfold take.
    rewrite (mapM_raises (take1 xdata) IndexError _
               (Z.of_nat ind + chunk_size)%Z); [reflexivity | | |].
    + apply take1_raises_IndexError.
    + apply in_arange. lia.
    + unfold take1.
      replace (Z.of_nat (length xdata) <=? Z.of_nat ind + chunk_size)%Z
        with true by (symmetry; now apply Z.leb_le).
      now rewrite orb_true_r.
Qed.

Lemma right_overrun_raises_witness :
  ((0 <= 2)%Z /\ In 10 (map fst [(2, 0); (10, 0)])
   /\ overruns_right demo_xdata 2 10 = true)
  /\ inelasticBGSubstract immediate_fit demo_xdata demo_ydata
       [(2, 0); (10, 0)] 2
     = Raise IndexError.
Proof.
  split.
  - split; [lia | split; [right; now left | reflexivity]].
  - apply (right_overrun_raises immediate_fit demo_xdata demo_ydata
             [(2, 0); (10, 0)] 2 10); [lia | right; now left | reflexivity].
Defined.

Lemma take1_in_range (a : list Q) (s : nat) :
  (s < length a)%nat -> take1 a (Z.of_nat s) = Ok (nth s a 0).
Proof.
  intros Hs. unfold take1.
  replace (Z.of_nat s <? - Z.of_nat (length a))%Z with false
    by (symmetry; apply Z.ltb_ge; lia).
  replace (Z.of_nat (length a) <=? Z.of_nat s)%Z with false
    by (symmetry; apply Z.leb_gt; lia).
  replace (Z.of_nat s <? 0)%Z with false by (symmetry; apply Z.ltb_ge; lia).
  cbn [orb]. rewrite Nat2Z.id. now rewrite (nth_error_nth' a 0 Hs).
Qed.

Lemma skipn_nth_cons {A} (d : A) (a : list A) (s : nat) :
  (s < length a)%nat -> skipn s a = nth s a d :: skipn (S s) a.
Proof.
  revert s. induction a as [|x a IH]; intros s Hs; [cbn in Hs; lia|].
  destruct s as [|s]; [reflexivity|].
  cbn [skipn nth]. apply IH. cbn in Hs. lia.
Qed.

Lemma mapM_take_seq (a : list Q) (n s : nat) :
  (s + n <= length a)%nat ->
  mapM (take1 a) (map Z.of_nat (seq s n)) = Ok (firstn n (skipn s a)).
Proof.
  revert s. induction n as [|n IH]; intros s Hs; [reflexivity|].
  cbn [seq map mapM]. rewrite take1_in_range by lia. cbn [bind].
  rewrite IH by lia. cbn [bind].
  now rewrite (skipn_nth_cons 0 a s) by lia.
Qed.

Lemma arange_nat (s n : nat) :
  arange (Z.of_nat s) (Z.of_nat s + Z.of_nat n) = map Z.of_nat (seq s n).
Proof.
  unfold arange.
  replace (Z.to_nat (Z.of_nat s + Z.of_nat n - Z.of_nat s)) with n by lia.
  revert s. induction n as [|n IH]; intros s; [reflexivity|].
  cbn [seq map]. f_equal; [f_equal; lia|].
  rewrite <- seq_shift, map_map, <- IH.
  apply map_ext. intros k. lia.
Qed.

Lemma take_window (a : list Q) (ind : nat) (chunk_size : Z) :
  (0 <= chunk_size <= Z.of_nat ind)%Z ->
  (Z.of_nat ind + chunk_size < Z.of_nat (length a))%Z ->
  take a (arange (Z.of_nat ind - chunk_size) (Z.of_nat ind + chunk_size + 1))
  = Ok (window a ind chunk_size).
Proof.
  intros Hc Hr. unfold take, window.
  replace (Z.of_nat ind - chunk_size)%Z
    with (Z.of_nat (Z.to_nat (Z.of_nat ind - chunk_size))) at 1 by lia.
  replace (Z.of_nat ind + chunk_size + 1)%Z
    with (Z.of_nat (Z.to_nat (Z.of_nat ind - chunk_size))
          + Z.of_nat (Z.to_nat (2 * chunk_size + 1)))%Z by lia.
  rewrite arange_nat. apply mapM_take_seq. lia.
Qed.

Lemma window_length (a : list Q) (ind : nat) (chunk_size : Z) :
  (0 <= chunk_size <= Z.of_nat ind)%Z ->
  (Z.of_nat ind + chunk_size < Z.of_nat (length a))%Z ->
  length (window a ind chunk_size) = Z.to_nat (2 * chunk_size + 1).
Proof.
  intros Hc Hr. unfold window. rewrite length_firstn, length_skipn. lia.
Qed.

Lemma chunk_of_in_range (xdata ydata : list Q) (chunk_size : Z) (feature : Q)
  (ind : nat) :
  length ydata = length xdata ->
  argmin (map (fun x => Qabs (x - feature)) xdata) = Ok ind ->
  (0 <= chunk_size <= Z.of_nat ind)%Z ->
  (Z.of_nat ind + chunk_size < Z.of_nat (length xdata))%Z ->
  chunk_of xdata ydata chunk_size feature
  = Ok (window xdata ind chunk_size, window ydata ind chunk_size).
Proof.
  intros Hlen Harg Hc Hr. unfold chunk_of. rewrite Harg. cbn [bind].
  rewrite !take_window by (rewrite ?Hlen; assumption). reflexivity.
Qed.

Lemma parameter_guesses_Ok (xchunk ychunk : list Q) :
  xchunk <> [] -> ychunk <> [] ->
  exists p0, parameter_guesses xchunk ychunk = Ok p0.
Proof.
  intros Hx Hy. destruct xchunk as [|x xs]; [congruence|].
  destruct ychunk as [|y ys]; [congruence|].
  eexists. reflexivity.
Qed.

Lemma chunk_constants_fitted
  (curve_fit : list Q -> list Q -> list Q -> option (list Q))
  (xchunk ychunk : list Q) (c : Q) :
  xchunk <> [] -> ychunk <> [] ->
  (forall p0, parameter_guesses xchunk ychunk = Ok p0 ->
     exists ps, curve_fit xchunk ychunk p0 = Some ps /\ last_item ps = Ok c) ->
  chunk_constants curve_fit (xchunk, ychunk)
  = Ok (map (fun _ => c * 1) xchunk).
Proof.
  intros Hx Hy Hfit. unfold chunk_constants; cbn [fst snd].
  destruct (parameter_guesses_Ok xchunk ychunk Hx Hy) as [p0 Hp0].
  rewrite Hp0. cbn [bind].
  destruct (Hfit p0 Hp0) as [ps [Hps Hc]]. rewrite Hps, Hc. cbn [bind].
  unfold ones_like. now rewrite map_map.
Qed.

(** ** Interpolation of two plateaus *)

Lemma last_cons {A} (a d : A) (l : list A) : last (a :: l) d = last l a.
Proof.
  revert a d. induction l as [|b l IH]; intros a d; [reflexivity|].
  change (last (a :: b :: l) d) with (last (b :: l) d).
  now rewrite !IH.
Qed.

Lemma sorted_last_bounds (x0 b0 : Q) (A B : list Q) :
  StronglySorted Qlt (x0 :: A ++ b0 :: B) ->
  x0 <= last A x0 /\ last A x0 < b0.
Proof.
  revert x0. induction A as [|a A IH]; intros x0 Hs.
  - cbn in *. split; [apply Qle_refl|].
    apply StronglySorted_inv in Hs. destruct Hs as [_ Hall].
    now inversion Hall.
  - rewrite last_cons.
    apply StronglySorted_inv in Hs. destruct Hs as [Hs Hall].
    destruct (IH a Hs) as [H1 H2]. split; [|exact H2].
    inversion Hall; subst. apply Qlt_le_weak. eapply Qlt_le_trans; eauto.
Qed.

Lemma interp_seg_flat (x x0 k : Q) (l : list Q) :
  interp_seg x x0 k l (map (fun _ => k) l) == k.
Proof.
  revert x0. induction l as [|a l IH]; intros x0; cbn [map interp_seg].
  - reflexivity.
  - destruct (Qltb x a); [|apply IH].
    unfold Qdiv. ring.
Qed.

(** Above the last sample of the first plateau the search is in the state
    [interp_seg x x0 k1 ...] with [x0 <= x]. *)
Lemma interp_seg_two_plateaus (x k1 k2 b0 : Q) (B : list Q) :
  forall (A : list Q) (x0 : Q),
    StronglySorted Qlt (x0 :: A ++ b0 :: B) -> x0 <= x ->
    let hi := last A x0 in
    let v := interp_seg x x0 k1 (A ++ b0 :: B)
               (map (fun _ => k1) A ++ k2 :: map (fun _ => k2) B) in
    (x <= hi -> v == k1)
    /\ (b0 <= x -> v == k2)
    /\ (hi < x -> x < b0 -> v == (k2 - k1) / (b0 - hi) * (x - hi) + k1).
Proof.
  induction A as [|a A IH]; intros x0 Hs Hx0; cbv zeta.
  - cbn [app map last interp_seg].
    destruct (sorted_last_bounds x0 b0 [] B Hs) as [_ Hlt]. cbn [last] in Hlt.
    destruct (Qltb x b0) eqn:Hb.
    + apply Qltb_lt in Hb. split; [|split].
      * intros Hle. assert (Hxe : x == x0) by (now apply Qle_antisym).
        rewrite Hxe. unfold Qdiv. ring.
      * intros Hge. exfalso. eapply Qlt_irrefl, Qlt_le_trans; eauto.
      * reflexivity.
    + apply Qltb_ge in Hb. split; [|split].
      * intros Hle. exfalso.
        apply (Qlt_irrefl x0). eapply Qlt_le_trans; [exact Hlt|].
        eapply Qle_trans; eauto.
      * intros _. apply interp_seg_flat.
      * intros _ Hlt'. exfalso. eapply Qlt_irrefl, Qlt_le_trans; eauto.
  - rewrite last_cons. cbn [app map interp_seg].
    pose proof (StronglySorted_inv Hs) as [Hs' Hall].
    destruct (sorted_last_bounds a b0 A B Hs') as [Hale Hlt].
    destruct (Qltb x a) eqn:Ha.
    + apply Qltb_lt in Ha. split; [|split].
      * intros _. unfold Qdiv. ring.
      * intros Hge. exfalso. apply (Qlt_irrefl x).
        eapply Qlt_le_trans; [exact Ha|].
        eapply Qle_trans; [exact Hale|].
        eapply Qle_trans; [apply Qlt_le_weak; exact Hlt | exact Hge].
      * intros Hgt _. exfalso. apply (Qlt_irrefl x).
        eapply Qlt_le_trans; [exact Ha|].
        eapply Qle_trans; [exact Hale | apply Qlt_le_weak; exact Hgt].
    + apply Qltb_ge in Ha. exact (IH a Hs' Ha).
Qed.

(** Interpolating two plateaus: [k1] up to the end [hi] of the first, [k2]
    from the start [lo] of the second, the ramp in between. *)
Lemma interp1_two_plateaus (x k1 k2 d : Q) (A B : list Q) :
  A <> [] -> B <> [] ->
  StronglySorted Qlt (A ++ B) ->
  let hi := last A d in
  let lo := hd d B in
  let v := interp1 (A ++ B)
             (map (fun _ => k1) A ++ map (fun _ => k2) B) x in
  (x <= hi -> v == k1)
  /\ (lo <= x -> v == k2)
  /\ (hi < x -> x < lo -> v == (k2 - k1) / (lo - hi) * (x - hi) + k1).
Proof.
  intros HA HB Hs. destruct A as [|a0 A]; [congruence|].
  destruct B as [|b0 B]; [congruence|]. cbv zeta.
  rewrite last_cons. cbn [hd app map interp1].
  destruct (sorted_last_bounds a0 b0 A B Hs) as [Hale Hlt].
  destruct (Qltb x a0) eqn:Ha.
  - apply Qltb_lt in Ha. split; [|split].
    + reflexivity.
    + intros Hge. exfalso. apply (Qlt_irrefl x).
      eapply Qlt_le_trans; [exact Ha|].
      eapply Qle_trans; [exact Hale|].
      eapply Qle_trans; [apply Qlt_le_weak; exact Hlt | exact Hge].
    + intros Hgt _. exfalso. apply (Qlt_irrefl x).
      eapply Qlt_le_trans; [exact Ha|].
      eapply Qle_trans; [exact Hale | apply Qlt_le_weak; exact Hgt].
  - apply Qltb_ge in Ha.
    exact (interp_seg_two_plateaus x k1 k2 b0 B A a0 Hs Ha).
Qed.

Lemma StronglySorted_app_r {A} (R : A -> A -> Prop) (l1 l2 : list A) :
  StronglySorted R (l1 ++ l2) -> StronglySorted R l2.
Proof.
  induction l1 as [|a l1 IH]; cbn; [trivial|].
  intros H. apply StronglySorted_inv in H. tauto.
Qed.

Lemma StronglySorted_app_l {A} (R : A -> A -> Prop) (l1 l2 : list A) :
  StronglySorted R (l1 ++ l2) -> StronglySorted R l1.
Proof.
  induction l1 as [|a l1 IH]; cbn; [constructor|].
  intros H. apply StronglySorted_inv in H. destruct H as [H Hall].
  constructor; [now apply IH|].
  apply Forall_app in Hall. tauto.
Qed.

Lemma StronglySorted_drop_middle {A} (R : A -> A -> Prop) (l1 l2 l3 : list A) :
  StronglySorted R (l1 ++ l2 ++ l3) -> StronglySorted R (l1 ++ l3).
Proof.
  induction l1 as [|a l1 IH]; cbn.
  - apply StronglySorted_app_r.
  - intros H. apply StronglySorted_inv in H. destruct H as [H Hall].
    constructor; [now apply IH|].
    rewrite !Forall_app in Hall. rewrite Forall_app. tauto.
Qed.

(** Two windows, the second starting after the end of the first, are
    consecutive pieces of the array. *)
Lemma windows_split {A} (a : list A) (p1 w p2 : nat) :
  (p1 + w <= p2)%nat ->
  exists l0 l1 l2,
    a = l0 ++ firstn w (skipn p1 a) ++ l1 ++ firstn w (skipn p2 a) ++ l2.
Proof.
  intros Hp.
  exists (firstn p1 a), (firstn (p2 - (w + p1)) (skipn (w + p1) a)),
         (skipn (w + p2) a).
  rewrite <- (skipn_skipn w p2 a), (firstn_skipn w (skipn p2 a)).
  replace (skipn p2 a) with (skipn (p2 - (w + p1)) (skipn (w + p1) a))
    by (rewrite skipn_skipn; f_equal; lia).
  rewrite (firstn_skipn (p2 - (w + p1)) (skipn (w + p1) a)).
  rewrite <- (skipn_skipn w p1 a), (firstn_skipn w (skipn p1 a)).
  now rewrite firstn_skipn.
Qed.

Lemma windows_sorted (xdata : list Q) (i1 i2 : nat) (chunk_size : Z) :
  StronglySorted Qlt xdata ->
  (0 <= chunk_size <= Z.of_nat i1)%Z ->
  (Z.of_nat i1 + chunk_size < Z.of_nat i2 - chunk_size)%Z ->
  StronglySorted Qlt (window xdata i1 chunk_size ++ window xdata i2 chunk_size).
Proof.
  intros Hs Hc Hsep. unfold window.
  destruct (windows_split xdata (Z.to_nat (Z.of_nat i1 - chunk_size))
              (Z.to_nat (2 * chunk_size + 1))
              (Z.to_nat (Z.of_nat i2 - chunk_size))) as [l0 [l1 [l2 E]]];
    [lia|].
  rewrite E in Hs.
  apply StronglySorted_app_r, StronglySorted_drop_middle in Hs.
  rewrite app_assoc in Hs. now apply StronglySorted_app_l in Hs.
Qed.

Lemma interp_Ok (x xp fp : list Q) :
  xp <> [] -> length xp = length fp ->
  interp x xp fp = Ok (map (interp1 xp fp) x).
Proof.
  intros Hne Hlen. unfold interp. destruct xp as [|x0 xp]; [congruence|].
  rewrite Hlen. now rewrite Nat.eqb_refl.
Qed.

(** C7: for an increasing [xdata] and two features whose windows lie within
    the curve, the first before the second, and whose fits give the
    constants [c1] and [c2], the background is [c1] at every [xdata] value
    up to the end of the first chunk, [c2] from the start of the second
    chunk on, and the linear ramp in between. *)
Theorem background_two_features
  (curve_fit : list Q -> list Q -> list Q -> option (list Q))
  (xdata ydata : list Q) (f1 v1 f2 v2 : Q) (chunk_size : Z) (i1 i2 : nat)
  (c1 c2 : Q) :
  StronglySorted Qlt xdata ->
  length ydata = length xdata ->
  argmin (map (fun x => Qabs (x - f1)) xdata) = Ok i1 ->
  argmin (map (fun x => Qabs (x - f2)) xdata) = Ok i2 ->
  (0 <= chunk_size <= Z.of_nat i1)%Z ->
  (Z.of_nat i1 + chunk_size < Z.of_nat i2 - chunk_size)%Z ->
  (Z.of_nat i2 + chunk_size < Z.of_nat (length xdata))%Z ->
  fit_constant curve_fit (window xdata i1 chunk_size)
               (window ydata i1 chunk_size) c1 ->
  fit_constant curve_fit (window xdata i2 chunk_size)
               (window ydata i2 chunk_size) c2 ->
  let hi1 := last (window xdata i1 chunk_size) 0 in
  let lo2 := hd 0 (window xdata i2 chunk_size) in
  exists background,
    inelasticBGSubstract curve_fit xdata ydata [(f1, v1); (f2, v2)] chunk_size
    = Ok (xdata, background)
    /\ Forall2
         (fun x b =>
            (x <= hi1 -> b == c1)
            /\ (lo2 <= x -> b == c2)
            /\ (hi1 < x -> x < lo2 ->
                b == (c2 - c1) / (lo2 - hi1) * (x - hi1) + c1))
         xdata background.
Proof.
  intros Hs Hlen Ha1 Ha2 Hc Hsep Hr Hfit1 Hfit2 hi1 lo2.
  assert (Hr1 : (Z.of_nat i1 + chunk_size < Z.of_nat (length xdata))%Z) by lia.
  assert (Hc2 : (0 <= chunk_size <= Z.of_nat i2)%Z) by lia.
  assert (Hne : forall a i, (0 <= chunk_size <= Z.of_nat i)%Z ->
            (Z.of_nat i + chunk_size < Z.of_nat (length a))%Z ->
            window a i chunk_size <> []).
  { intros a i H1 H2 E. apply (f_equal (@length Q)) in E.
    rewrite window_length in E by assumption. cbn [length] in E. lia. }
  pose proof (Hne xdata i1 Hc Hr1) as Hx1.
  pose proof (Hne xdata i2 Hc2 Hr) as Hx2.
  assert (Hy1 : window ydata i1 chunk_size <> [])
    by (apply Hne; rewrite ?Hlen; assumption).
  assert (Hy2 : window ydata i2 chunk_size <> [])
    by (apply Hne; rewrite ?Hlen; assumption).
  unfold inelasticBGSubstract, first_column. cbn [map fst bind mapM].
  rewrite (chunk_of_in_range xdata ydata chunk_size f1 i1 Hlen Ha1 Hc Hr1).
  rewrite (chunk_of_in_range xdata ydata chunk_size f2 i2 Hlen Ha2 Hc2 Hr).
  cbn [bind mapM map fst concat].
  rewrite (chunk_constants_fitted curve_fit _ _ c1 Hx1 Hy1 Hfit1).
  rewrite (chunk_constants_fitted curve_fit _ _ c2 Hx2 Hy2 Hfit2).
  cbn [bind concat]. rewrite !app_nil_r.
  rewrite interp_Ok;
    [| intros E; apply app_eq_nil in E; tauto
     | now rewrite !length_app, !length_map].
  cbn [bind]. eexists. split; [reflexivity|].
  apply Forall2_map_diag. intros x _.
  pose proof (windows_sorted xdata i1 i2 chunk_size Hs Hc Hsep) as Hsorted.
  destruct (interp1_two_plateaus x (c1 * 1) (c2 * 1) 0 _ _ Hx1 Hx2 Hsorted)
    as [P1 [P2 P3]].
  fold hi1 in P1, P3. fold lo2 in P2, P3.
  split; [|split].
  - intros H. rewrite (P1 H). ring.
  - intros H. rewrite (P2 H). ring.
  - intros H H'. rewrite (P3 H H'). unfold Qdiv. ring.
Qed.

Lemma background_two_features_witness :
  (StronglySorted Qlt demo_xdata
   /\ argmin (map (fun x => Qabs (x - 2)) demo_xdata) = Ok 2%nat
   /\ argmin (map (fun x => Qabs (x - 8)) demo_xdata) = Ok 8%nat
   /\ fit_constant immediate_fit (window demo_xdata 2 2) (window demo_ydata 2 2) 5
   /\ fit_constant immediate_fit (window demo_xdata 8 2) (window demo_ydata 8 2) 2)
  /\ exists background,
       inelasticBGSubstract immediate_fit demo_xdata demo_ydata
         [(2, 0); (8, 0)] 2
       = Ok (demo_xdata, background)
       /\ Forall2
            (fun x b =>
               (x <= 4 -> b == 5)
               /\ (6 <= x -> b == 2)
               /\ (4 < x -> x < 6 -> b == (2 - 5) / (6 - 4) * (x - 4) + 5))
            demo_xdata background.
Proof.
  assert (Hs : StronglySorted Qlt demo_xdata)
    by (unfold demo_xdata; repeat constructor).
  assert (H1 : fit_constant immediate_fit (window demo_xdata 2 2)
                 (window demo_ydata 2 2) 5).
  { intros p0 H. vm_compute in H. injection H as <-.
    eexists. split; reflexivity. }
  assert (H2 : fit_constant immediate_fit (window demo_xdata 8 2)
                 (window demo_ydata 8 2) 2).
  { intros p0 H. vm_compute in H. injection H as <-.
    eexists. split; reflexivity. }
  split.
  - repeat split; assumption.
  - apply (background_two_features immediate_fit demo_xdata demo_ydata
             2 0 8 0 2 2 8 5 2 Hs eq_refl eq_refl eq_refl);
      [cbn; lia | cbn; lia | cbn; lia | exact H1 | exact H2].
Defined.

(* ------------------------------------------------------------------ *)
(** * The code at inputs where it departs from its description *)

(** The mask of [circ], row by row. *)
Lemma mask_row {C} (P : C -> Q -> bool) (f : Q -> Q -> C) (y : Q)
  (xs : list Q) :
  map2 P (map2 f xs (map (fun _ => y) xs)) (map (fun _ => y) xs)
  = map (fun x => P (f x y) y) xs.
Proof.
  induction xs as [|x xs IH]; [reflexivity|].
  cbn [map]. rewrite !map2_cons. now rewrite IH.
Qed.

Lemma mask_rows {C} (P : C -> Q -> bool) (f : Q -> Q -> C) (xs ys : list Q) :
  zip2d P (zip2d f (fst (meshgrid xs ys)) (snd (meshgrid xs ys)))
        (snd (meshgrid xs ys))
  = map (fun y => map (fun x => P (f x y) y) xs) ys.
Proof.
  unfold zip2d, meshgrid; cbn [fst snd].
  induction ys as [|y ys IH]; [reflexivity|].
  cbn [map]. rewrite !map2_cons. now rewrite mask_row, IH.
Qed.

Lemma where2_from_app (k : nat) (m1 m2 : list (list bool)) :
  where2_from k (m1 ++ m2)
  = where2_from k m1 ++ where2_from (k + length m1) m2.
Proof.
  revert k. induction m1 as [|r m1 IH]; intros k.
  - cbn [app length]. now rewrite Nat.add_0_r.
  - change (where2_from k ((r :: m1) ++ m2))
      with (map (fun j => (k, j)) (where1 r) ++ where2_from (S k) (m1 ++ m2)).
    change (where2_from k (r :: m1))
      with (map (fun j => (k, j)) (where1 r) ++ where2_from (S k) m1).
    rewrite IH, <- app_assoc. cbn [length].
    now replace (k + S (length m1))%nat with (S k + length m1)%nat by lia.
Qed.

Lemma where2_from_empty_rows (k : nat) (m : list (list bool)) :
  Forall (fun row => where1 row = []) m -> where2_from k m = [].
Proof.
  intros H. revert k. induction H as [|r m Hr _ IH]; intros k;
    [reflexivity|].
  unfold where2_from in *. cbn [length seq combine map concat fst snd].
  now rewrite Hr, IH.
Qed.

Lemma where1_all_false {A} (g : A -> bool) (l : list A) :
  (forall x, g x = false) -> where1 (map g l) = [].
Proof.
  intros Hg. unfold where1, enumerate. generalize 0%nat.
  induction l as [|a l IH]; intros k; [reflexivity|].
  cbn [map length seq combine filter snd]. rewrite Hg. apply IH.
Qed.

(** Leading rows whose masks are empty can be left out of [where2]. *)
Lemma where2_skip_rows (rowmask : Q -> list bool) (l : list Q) (k : nat) :
  Forall (fun y => where1 (rowmask y) = []) (firstn k l) ->
  where2 (map rowmask l)
  = where2_from (length (firstn k l)) (map rowmask (skipn k l)).
Proof.
  intros H.
  transitivity (where2_from 0 (map rowmask (firstn k l ++ skipn k l))).
  { now rewrite firstn_skipn. }
  rewrite map_app, where2_from_app, length_map.
  rewrite where2_from_empty_rows; [reflexivity|].
  apply Forall_forall. intros row Hrow. apply in_map_iff in Hrow.
  destruct Hrow as [y [<- Hy]]. rewrite Forall_forall in H. now apply H.
Qed.

(** The rows of [circ] at or below the cutoff are not sampled: the sampled
    pixels are found from the first row [k] above it. *)
Lemma circ_skip_rows (xg yg rg : Q) (im : list (list Q)) (scalefactor : Q)
  (k : nat) :
  let lin := linspace 1 (Qofnat (shape0 im)) (shape0 im) in
  forallb (fun y => negb (Qgtb y 550)) (firstn k lin) = true ->
  circ xg yg rg im scalefactor
  = bind (mapM (fun ab : nat * nat => item2 im (fst ab) (snd ab))
            (where2_from (length (firstn k lin))
               (map (fun y =>
                       map (fun x =>
                              Qltb ((x - xg * scalefactor) ^ 2
                                    + (y - yg * scalefactor) ^ 2
                                    - (rg * scalefactor) ^ 2) 10
                              && Qgtb y 550) lin)
                    (skipn k lin))))
         (fun sampled => Ok (reciprocal (mean sampled))).
Proof.
  intros lin Hk. unfold circ; cbv zeta. fold lin.
  rewrite mask_rows.
  rewrite (where2_skip_rows _ lin k); [reflexivity|].
  rewrite forallb_forall in Hk. apply Forall_forall. intros y Hy.
  apply where1_all_false. intros x.
  specialize (Hk y Hy). apply negb_true_iff in Hk. rewrite Hk.
  apply andb_false_r.
Qed.

Lemma circ_as_specified_skip_rows (xg yg rg : Q) (im : list (list Q))
  (scalefactor : Q) (k : nat) :
  let lin := linspace 1 (Qofnat (shape0 im)) (shape0 im) in
  forallb (fun y => negb (Qgtb y 550)) (firstn k lin) = true ->
  circ_as_specified xg yg rg im scalefactor
  = bind (mapM (fun ab : nat * nat => item2 im (fst ab) (snd ab))
            (where2_from (length (firstn k lin))
               (map (fun y =>
                       map (fun x =>
                              Qltb (Qabs ((x - xg * scalefactor) ^ 2
                                          + (y - yg * scalefactor) ^ 2
                                          - (rg * scalefactor) ^ 2)) 10
                              && Qgtb y 550) lin)
                    (skipn k lin))))
         (fun sampled => Ok (reciprocal (mean sampled))).
Proof.
  intros lin Hk. unfold circ_as_specified; cbv zeta. fold lin.
  rewrite (where2_skip_rows _ lin k); [reflexivity|].
  rewrite forallb_forall in Hk. apply Forall_forall. intros y Hy.
  apply where1_all_false. intros x.
  specialize (Hk y Hy). apply negb_true_iff in Hk. rewrite Hk.
  apply andb_false_r.
Qed.

(** C3: for the trial circle of center [(300, 552)] and radius 10 the cost
    is 1/2: the mean, 2, is taken over the 42 pixels of rows 551 and 552
    with squared distance below 110, the center pixel included.  The
    pixels whose squared distance is within 10 of 100 are four, all of
    intensity 1: the cost as specified is 1. *)
Theorem circ_samples_the_disk :
  circ 15 (276 # 10) (1 # 2) ring_image 20 = Ok (Some (42 # 84))
  /\ circ_as_specified 15 (276 # 10) (1 # 2) ring_image 20 = Ok (Some (4 # 4)).
Proof.
  split.
  - rewrite (circ_skip_rows 15 (276 # 10) (1 # 2) ring_image 20 550);
      vm_compute; reflexivity.
  - rewrite (circ_as_specified_skip_rows 15 (276 # 10) (1 # 2) ring_image 20
               550); vm_compute; reflexivity.
Qed.

(** C4: in a 2 by 2 image with center [(0, 0)], the pixel of row 1 and
    column 1, at distance [sqrt 2] of the center, is accumulated under
    radius 3, and the pixels at distance 1 under radius 2: the coordinates
    of the indices 0 and 1 are 0 and 2. *)
Theorem radialAverage_bins_stretched_distance :
  radialAverage [[1; 2]; [3; 4]] [0; 0]
  = Ok ([0; 2; 3]%Z, [1 # 2; 5 # 3; 4 # 2])
  /\ pixel_radius 2 0 0 (1%nat, 1%nat, 4) = 3%Z
  /\ around_sqrt ((1 - 0) ^ 2 + (1 - 0) ^ 2) = 1%Z.
Proof. repeat split. Qed.

(* ------------------------------------------------------------------ *)
(** * Further properties of the lineshape library *)

Section LineshapeShape.
Import Lineshape.
Local Open Scope R_scope.

Lemma exp_le_1 (e : R) : e <= 0 -> exp e <= 1.
Proof.
  intros [H | ->].
  - left. rewrite <- exp_0. now apply exp_increasing.
  - right. apply exp_0.
Qed.

Lemma pow2_gt_0 (x : R) : x <> 0 -> 0 < x ^ 2.
Proof.
  intros Hx. destruct (Rtotal_order x 0) as [H | [H | H]]; [nra | lra | nra].
Qed.

Lemma Gaussian_exponent_nonpos (x xc width_g : R) :
  width_g <> 0 -> - (x - xc) ^ 2 / (2 * width_g) ^ 2 <= 0.
Proof.
  intros Hw.
  assert (Hd : 0 < (2 * width_g) ^ 2) by (apply pow2_gt_0; lra).
  assert (Hn : 0 <= (x - xc) ^ 2) by apply pow2_ge_0.
  unfold Rdiv. apply Rinv_0_lt_compat in Hd. nra.
Qed.

Lemma Gaussian_bounds (x xc width_g : R) :
  width_g <> 0 -> 0 < Gaussian x xc width_g <= 1.
Proof.
  intros Hw. unfold Gaussian; cbv zeta. split.
  - apply exp_pos.
  - apply exp_le_1. now apply Gaussian_exponent_nonpos.
Qed.

(** The Gaussian has values between 0 and 1: its height is at most 1. *)
Theorem Gaussian_range (x xc width_g : R) :
  width_g <> 0 -> 0 <= Gaussian x xc width_g <= 1.
Proof.
  intros Hw. destruct (Gaussian_bounds x xc width_g Hw) as [H0 H1].
  split; [left; exact H0 | exact H1].
Qed.

Lemma Gaussian_range_witness :
  1 <> 0 /\ 0 <= Gaussian 3 1 1 <= 1.
Proof. split; [lra | apply (Gaussian_range 3 1 1); lra]. Defined.

(** The Gaussian does not increase away from its center: of two points,
    the one farther from the center has the smaller or equal value. *)
Theorem Gaussian_decreasing_off_center (x1 x2 xc width_g : R) :
  width_g <> 0 -> Rabs (x1 - xc) <= Rabs (x2 - xc) ->
  Gaussian x2 xc width_g <= Gaussian x1 xc width_g.
Proof.
  intros Hw Hx. unfold Gaussian; cbv zeta.
  assert (Hd : 0 < (2 * width_g) ^ 2) by (apply pow2_gt_0; lra).
  assert (Hs : (x1 - xc) ^ 2 <= (x2 - xc) ^ 2).
  { rewrite <- !Rsqr_pow2. now apply Rsqr_le_abs_1. }
  assert (He : - (x2 - xc) ^ 2 / (2 * width_g) ^ 2
               <= - (x1 - xc) ^ 2 / (2 * width_g) ^ 2).
  { unfold Rdiv. apply Rinv_0_lt_compat in Hd. nra. }
  destruct He as [He | He].
  - left. now apply exp_increasing.
  - right. now rewrite He.
Qed.

Lemma Gaussian_decreasing_off_center_witness :
  (1 <> 0 /\ Rabs (2 - 1) <= Rabs (3 - 1))
  /\ Gaussian 3 1 1 <= Gaussian 2 1 1.
Proof.
  assert (H : Rabs (2 - 1) <= Rabs (3 - 1))
    by (rewrite !Rabs_pos_eq; lra).
  split; [split; [lra | exact H]|].
  apply (Gaussian_decreasing_off_center 2 3 1 1); [lra | exact H].
Defined.

Lemma Lorentzian_bounds (x xc width_l : R) :
  width_l <> 0 -> 0 < Lorentzian x xc width_l <= 1.
Proof.
  intros Hw. unfold Lorentzian; cbv zeta.
  assert (Hh : 0 < (width_l / 2) ^ 2) by (apply pow2_gt_0; lra).
  assert (Hn : 0 <= (x - xc) ^ 2) by apply pow2_ge_0.
  assert (Hd : 0 < (x - xc) ^ 2 + (width_l / 2) ^ 2) by lra.
  split.
  - apply Rdiv_lt_0_compat; assumption.
  - apply Rmult_le_reg_r with (r := (x - xc) ^ 2 + (width_l / 2) ^ 2);
      [exact Hd|].
    unfold Rdiv. rewrite Rmult_assoc, Rinv_l by lra. lra.
Qed.

(** The Lorentzian has values in (0, 1]. *)
Theorem Lorentzian_range (x xc width_l : R) :
  width_l <> 0 -> 0 < Lorentzian x xc width_l <= 1.
Proof. intros Hw. exact (Lorentzian_bounds x xc width_l Hw). Qed.

Lemma Lorentzian_range_witness :
  1 <> 0 /\ 0 < Lorentzian 3 1 1 <= 1.
Proof. split; [lra | apply (Lorentzian_range 3 1 1); lra]. Defined.

(** [width_l] is the full width at half maximum of the Lorentzian: half a
    width away from the center, on either side, its value is 1/2. *)
Theorem Lorentzian_half_maximum (xc width_l : R) :
  width_l <> 0 ->
  Lorentzian (xc + width_l / 2) xc width_l = 1 / 2
  /\ Lorentzian (xc - width_l / 2) xc width_l = 1 / 2.
Proof.
  intros Hw. unfold Lorentzian; cbv zeta.
  pose proof (pow2_gt_0 width_l Hw) as Hp.
  split.
  - replace (xc + width_l / 2 - xc) with (width_l / 2) by ring.
    field. lra.
  - replace (xc - width_l / 2 - xc) with (- (width_l / 2)) by ring.
    field. lra.
Qed.

Lemma Lorentzian_half_maximum_witness :
  4 <> 0 /\ Lorentzian (1 + 4 / 2) 1 4 = 1 / 2.
Proof.
  split; [lra | apply (Lorentzian_half_maximum 1 4); lra].
Defined.

(** Two widths away from the center the Gaussian has fallen to [1/e]. *)
Theorem Gaussian_two_widths (xc width_g : R) :
  width_g <> 0 ->
  Gaussian (xc + 2 * width_g) xc width_g = exp (- 1)
  /\ Gaussian (xc - 2 * width_g) xc width_g = exp (- 1).
Proof.
  intros Hw. unfold Gaussian; cbv zeta. split; f_equal; field; exact Hw.
Qed.

Lemma Gaussian_two_widths_witness :
  1 <> 0 /\ Gaussian (3 + 2 * 1) 3 1 = exp (- 1).
Proof. split; [lra | apply (Gaussian_two_widths 3 1); lra]. Defined.

(** The pseudo-Voigt profile is symmetric about its center. *)
Theorem pseudoVoigt_symmetric (d height xc width_g width_l constant : R) :
  pseudoVoigt (xc + d) height xc width_g width_l constant
  = pseudoVoigt (xc - d) height xc width_g width_l constant.
Proof.
  unfold pseudoVoigt, Gaussian, Lorentzian; cbv zeta.
  replace (xc + d - xc) with d by ring.
  replace (xc - d - xc) with (- d) by ring.
  replace ((- d) ^ 2) with (d ^ 2) by ring. reflexivity.
Qed.

(** For a non-negative height the profile stays between the constant and
    its value at the center, [height + constant]. *)
Theorem pseudoVoigt_range (x height xc width_g width_l constant : R) :
  width_g <> 0 -> width_l <> 0 -> 0 <= height ->
  constant <= pseudoVoigt x height xc width_g width_l constant
           <= height + constant.
Proof.
  intros Hg Hl Hh. unfold pseudoVoigt.
  pose proof (Gaussian_bounds x xc width_g Hg) as [G0 G1].
  pose proof (Lorentzian_bounds x xc width_l Hl) as [L0 L1].
  split; nra.
Qed.

Lemma pseudoVoigt_range_witness :
  (1 <> 0 /\ 1 <> 0 /\ 0 <= 2)
  /\ 5 <= pseudoVoigt 4 2 3 1 1 5 <= 2 + 5.
Proof.
  split; [repeat split; lra | apply (pseudoVoigt_range 4 2 3 1 1 5); lra].
Defined.

(** With non-negative amplitudes and rates the biexponential does not
    increase. *)
Theorem biexp_decreasing (x y a b c d e : R) :
  0 <= a -> 0 <= b -> 0 <= c -> 0 <= d -> x <= y ->
  biexp y a b c d e <= biexp x a b c d e.
Proof.
  intros Ha Hb Hc Hd Hxy. unfold biexp.
  assert (E : forall r, 0 <= r -> exp (- r * y) <= exp (- r * x)).
  { intros r Hr. destruct (Req_dec (- r * y) (- r * x)) as [-> | Hne].
    - lra.
    - left. apply exp_increasing. nra. }
  pose proof (E b Hb). pose proof (E d Hd).
  pose proof (exp_pos (- b * y)). pose proof (exp_pos (- d * y)).
  nra.
Qed.

Lemma biexp_decreasing_witness :
  (0 <= 1 /\ 0 <= 2 /\ 0 <= 3 /\ 0 <= 4 /\ 0 <= 1)
  /\ biexp 1 1 2 3 4 5 <= biexp 0 1 2 3 4 5.
Proof.
  split; [repeat split; lra | apply (biexp_decreasing 0 1 1 2 3 4 5); lra].
Defined.

End LineshapeShape.

(* ------------------------------------------------------------------ *)
(** * Further properties of the center refiner *)

(** The grid of [circ]: index [k] has coordinate [k + 1]. *)
Lemma Qofnat_S (k : nat) : Qofnat (S k) == Qofnat k + 1.
Proof.
  unfold Qofnat. rewrite Nat2Z.inj_succ, <- Z.add_1_r.
  now rewrite inject_Z_plus.
Qed.

Lemma Qofnat_pos (k : nat) : (0 < k)%nat -> 0 < Qofnat k.
Proof.
  intros H. unfold Qofnat. change 0 with (inject_Z 0).
  rewrite <- Zlt_Qlt. lia.
Qed.

Lemma linspace_1_nth (s k : nat) :
  (k < s)%nat -> nth k (linspace 1 (Qofnat s) s) 0 == Qofnat k + 1.
Proof.
  intros Hk. destruct s as [|[|s]]; [lia| |].
  - destruct k; [reflexivity | lia].
  - unfold linspace.
    set (F := fun k : nat =>
                1 + Qofnat k * ((Qofnat (S (S s)) - 1) / Qofnat (S (S s) - 1))).
    rewrite (nth_indep _ 0 (F 0%nat))
      by (rewrite length_map, length_seq; lia).
    rewrite map_nth, seq_nth by lia. subst F. cbn [Nat.add].
    replace (S (S s) - 1)%nat with (S s) by lia.
    rewrite (Qofnat_S (S s)).
    assert (Hp : 0 < Qofnat (S s)) by (apply Qofnat_pos; lia).
    field. intros E. rewrite E in Hp. now apply Qlt_irrefl in Hp.
Qed.

(** The indices selected in a row, read on a second list of the same
    length. *)
Lemma where1_as_filter {A V} (t : A -> bool) (d : A) (xs : list A)
  (row : list V) :
  length row = length xs ->
  where1 (map t xs)
  = map fst (filter (fun jv => t (nth (fst jv) xs d)) (enumerate row)).
Proof.
  unfold where1, enumerate. rewrite length_map.
  assert (G : forall k (ys : list A) (r : list V),
             length r = length ys ->
             map fst (filter snd (combine (seq k (length ys)) (map t ys)))
             = map fst (filter (fun jv => t (nth (fst jv - k) ys d))
                               (combine (seq k (length r)) r))).
  { intros k ys. revert k. induction ys as [|y ys IH]; intros k [|v r] Hlen;
      try discriminate; [reflexivity|].
    cbn [length seq map combine filter snd fst].
    rewrite Nat.sub_diag. change (nth 0 (y :: ys) d) with y.
    assert (E : filter (fun jv : nat * V => t (nth (fst jv - k) (y :: ys) d))
                  (combine (seq (S k) (length r)) r)
                = filter (fun jv : nat * V => t (nth (fst jv - S k) ys d))
                    (combine (seq (S k) (length r)) r)).
    { apply filter_ext_in. intros [j v'] Hin. cbn [fst].
      apply in_combine_l, in_seq in Hin.
      replace (j - k)%nat with (S (j - S k)) by lia. reflexivity. }
    rewrite E. assert (Hr : length r = length ys) by (now injection Hlen).
    destruct (t y); cbn [map fst]; now rewrite (IH (S k) r Hr). }
  intros Hlen. rewrite (G 0%nat xs row Hlen).
  f_equal. apply filter_ext. intros jv. now rewrite Nat.sub_0_r.
Qed.

(** Two enumerated lists of the same length mapped by functions that agree
    position by position. *)
Lemma map_enumerate_ext {A B C} (g : nat * A -> C) (h : nat * B -> C)
  (la : list A) (lb : list B) :
  length la = length lb ->
  (forall m a b, nth_error la m = Some a -> nth_error lb m = Some b ->
                 g (m, a) = h (m, b)) ->
  map g (enumerate la) = map h (enumerate lb).
Proof.
  unfold enumerate.
  assert (G : forall k (l1 : list A) (l2 : list B),
             length l1 = length l2 ->
             (forall m a b, nth_error l1 m = Some a -> nth_error l2 m = Some b ->
                            g (k + m, a)%nat = h (k + m, b)%nat) ->
             map g (combine (seq k (length l1)) l1)
             = map h (combine (seq k (length l2)) l2)).
  { intros k l1. revert k. induction l1 as [|a l1 IH]; intros k [|b l2] Hlen H;
      try discriminate; [reflexivity|].
    cbn [length seq combine map]. f_equal.
    - specialize (H 0%nat a b eq_refl eq_refl).
      now rewrite Nat.add_0_r in H.
    - apply IH; [now injection Hlen|].
      intros m a' b' Ha Hb. specialize (H (S m) a' b' Ha Hb).
      now rewrite Nat.add_succ_r in H. }
  intros Hlen H. apply (G 0%nat la lb Hlen). exact H.
Qed.

Lemma filter_map_swap {A B} (f : A -> B) (p : B -> bool) (l : list A) :
  filter p (map f l) = map f (filter (fun a => p (f a)) l).
Proof.
  induction l as [|a l IH]; [reflexivity|].
  cbn [map filter]. rewrite IH. now destruct (p (f a)).
Qed.

(** The index pairs found by [where2] in a mask laid over an array of the
    same shape are the positions of the entries that pass the test. *)
Lemma where2_as_filter (lin : list Q) (T : Q -> Q -> bool)
  (im : list (list Q)) :
  square (length lin) im ->
  where2 (map (fun y => map (fun x => T x y) lin) lin)
  = map (fun px : nat * nat * Q => fst px)
        (filter (fun px => T (nth (snd (fst px)) lin 0)
                             (nth (fst (fst px)) lin 0))
                (ndenumerate im)).
Proof.
  intros [Hlen Hrows]. unfold where2, ndenumerate.
  rewrite <- concat_filter_map, concat_map, !map_map. f_equal.
  apply map_enumerate_ext; [now rewrite length_map|].
  intros m mrow row Hm Hrow. cbn [fst snd].
  rewrite nth_error_map in Hm.
  destruct (nth_error lin m) as [y|] eqn:Hy; [|discriminate].
  injection Hm as <-.
  assert (Hy' : nth m lin 0 = y) by (now apply nth_error_nth).
  assert (Hr : length row = length lin).
  { rewrite Forall_forall in Hrows. apply Hrows.
    now apply nth_error_In with (n := m). }
  rewrite (where1_as_filter (fun x => T x y) 0 lin row Hr).
  rewrite filter_map_swap, !map_map. cbn [fst snd]. rewrite Hy'.
  reflexivity.
Qed.

Lemma mapM_item2_pixels (im : list (list Q)) (l : list (nat * nat * Q)) :
  (forall px, In px l -> In px (ndenumerate im)) ->
  mapM (fun ab : nat * nat => item2 im (fst ab) (snd ab))
       (map (fun px : nat * nat * Q => fst px) l)
  = Ok (map snd l).
Proof.
  induction l as [|px l IH]; intros H; [reflexivity|].
  cbn [map mapM].
  destruct (in_ndenumerate im px (H px (or_introl eq_refl)))
    as [row [Hrow Hv]].
  unfold item2 at 1. rewrite Hrow, Hv. cbn [bind].
  rewrite IH by (intros q Hq; apply H; now right). reflexivity.
Qed.

Lemma circ_on_square (s : nat) (im : list (list Q))
  (xg yg rg scalefactor : Q) :
  square s im ->
  circ xg yg rg im scalefactor
  = Ok (sampled_cost im (xg * scalefactor) (yg * scalefactor)
          (rg * scalefactor)).
Proof.
  intros Hsq. unfold sampled_cost, circ; cbv zeta. rewrite mask_rows.
  assert (Hs : shape0 im = s) by (exact (proj1 Hsq)).
  rewrite Hs.
  assert (Hsq' : square (length (linspace 1 (Qofnat s) s)) im)
    by (now rewrite linspace_length).
  rewrite (where2_as_filter _ (fun x y =>
             Qltb ((x - xg * scalefactor) ^ 2 + (y - yg * scalefactor) ^ 2
                   - (rg * scalefactor) ^ 2) 10 && Qgtb y 550) im Hsq').
  rewrite mapM_item2_pixels
    by (intros px Hpx; apply filter_In in Hpx; tauto).
  cbn [bind]. do 4 f_equal.
  apply filter_ext_in. intros px Hpx.
  destruct (in_ndenumerate_square s im px Hsq Hpx) as [Hi Hj].
  unfold circ_samples, Qgtb.
  pose proof (linspace_1_nth s _ Hi) as Ei.
  pose proof (linspace_1_nth s _ Hj) as Ej.
  f_equal; apply Qltb_comp; try reflexivity.
  - now rewrite Ei, Ej.
  - exact Ei.
Qed.

(** On a square image [circ] does not raise, and its value is the
    reciprocal of the mean intensity of the pixels (row [i], column [j])
    with [(j + 1 - xg*scalefactor)^2 + (i + 1 - yg*scalefactor)^2
    - (rg*scalefactor)^2 < 10] and [i + 1 > 550]. *)
Theorem circ_cost (s : nat) (im : list (list Q)) (xg yg rg scalefactor : Q) :
  square s im ->
  circ xg yg rg im scalefactor
  = Ok (reciprocal (mean (map snd
          (filter (circ_samples (xg * scalefactor) (yg * scalefactor)
                                (rg * scalefactor))
                  (ndenumerate im))))).
Proof. intros Hsq. exact (circ_on_square s im xg yg rg scalefactor Hsq). Qed.

Lemma circ_cost_witness :
  square 3 test_image3
  /\ circ 1 1 1 test_image3 20
     = Ok (reciprocal (mean (map snd
             (filter (circ_samples (1 * 20) (1 * 20) (1 * 20))
                     (ndenumerate test_image3))))).
Proof.
  assert (Hsq : square 3 test_image3)
    by (split; [reflexivity | repeat constructor]).
  split; [exact Hsq | exact (circ_cost 3 test_image3 1 1 1 20 Hsq)].
Defined.

Lemma linspace_1_le (s : nat) (y : Q) :
  In y (linspace 1 (Qofnat s) s) -> y <= Qofnat s.
Proof.
  intros Hy. apply (In_nth _ _ 0) in Hy. destruct Hy as [k [Hk <-]].
  rewrite linspace_length in Hk. rewrite (linspace_1_nth s k Hk).
  rewrite <- Qofnat_S. unfold Qofnat. rewrite <- Zle_Qle. lia.
Qed.

(** An image of at most 550 rows has no pixel beyond the cutoff: whatever
    the trial circle, nothing is sampled and the cost is not a number. *)
Theorem circ_small_image (xg yg rg : Q) (im : list (list Q))
  (scalefactor : Q) :
  (length im <= 550)%nat -> circ xg yg rg im scalefactor = Ok None.
Proof.
  intros Hs.
  rewrite (circ_skip_rows xg yg rg im scalefactor (shape0 im)).
  - rewrite skipn_all2 by (rewrite linspace_length; apply Nat.le_refl).
    reflexivity.
  - apply forallb_forall. intros y Hy. apply negb_true_iff.
    unfold Qgtb. apply Qltb_ge.
    assert (Hin : In y (linspace 1 (Qofnat (shape0 im)) (shape0 im))).
    { rewrite <- (firstn_skipn (shape0 im)). apply in_or_app. now left. }
    apply linspace_1_le in Hin. eapply Qle_trans; [exact Hin|].
    unfold Qofnat, shape0. change 550 with (inject_Z 550).
    rewrite <- Zle_Qle. lia.
Qed.

Lemma circ_small_image_witness :
  (length test_image3 <= 550)%nat /\ circ 1 1 1 test_image3 20 = Ok None.
Proof.
  split; [cbn; lia | apply (circ_small_image 1 1 1 test_image3 20); cbn; lia].
Defined.

(** The radius enters [circ] through its square only: its sign does not
    matter. *)
Theorem circ_radius_sign (xg yg rg : Q) (im : list (list Q))
  (scalefactor : Q) :
  circ xg yg (- rg) im scalefactor = circ xg yg rg im scalefactor.
Proof.
  unfold circ; cbv zeta.
  rewrite (zip2d_mask_ext (fun res y0 => Qltb res 10 && Qgtb y0 550)
             (fun x0 y0 => (x0 - xg * scalefactor) ^ 2
                           + (y0 - yg * scalefactor) ^ 2
                           - (- rg * scalefactor) ^ 2)
             (fun x0 y0 => (x0 - xg * scalefactor) ^ 2
                           + (y0 - yg * scalefactor) ^ 2
                           - (rg * scalefactor) ^ 2)).
  - reflexivity.
  - intros a b. f_equal. apply Qltb_comp; [|reflexivity].
    simpl. ring.
Qed.








(** On integer guesses too, whatever point the optimizer returns, the
    radius returned is the guess. *)
Lemma fCenter_int_radius_is_guess
  (minimize : (Q * Q * Q -> result (option Q)) -> Q * Q * Q
              -> result (Q * Q * Q))
  (xg yg rg : Z) (im : list (list Q)) (scalefactor : Z) (p : Q * Q * Q) :
  minimize (c1 im)
    (inject_Z (xg / scalefactor), inject_Z (yg / scalefactor),
     inject_Z (rg / scalefactor)) = Ok p ->
  fCenter_int minimize xg yg rg im scalefactor
  = Ok (fst (fst p) * inject_Z scalefactor,
        snd (fst p) * inject_Z scalefactor, rg).
Proof. intros H. unfold fCenter_int; cbv zeta. now rewrite H. Qed.

(** On integer guesses, when the optimizer hands back its starting point,
    [fCenter] returns each coordinate of the guess rounded down to a
    multiple of [scalefactor], less than [scalefactor] below the guess: the
    guess comes back exactly when [scalefactor] divides it. *)
Theorem fCenter_int_rounds_guess_down
  (minimize : (Q * Q * Q -> result (option Q)) -> Q * Q * Q
              -> result (Q * Q * Q))
  (xg yg rg : Z) (im : list (list Q)) (scalefactor : Z) :
  (0 < scalefactor)%Z ->
  minimize (c1 im)
    (inject_Z (xg / scalefactor), inject_Z (yg / scalefactor),
     inject_Z (rg / scalefactor))
  = Ok (inject_Z (xg / scalefactor), inject_Z (yg / scalefactor),
        inject_Z (rg / scalefactor)) ->
  exists xcenter ycenter,
    fCenter_int minimize xg yg rg im scalefactor = Ok (xcenter, ycenter, rg)
    /\ xcenter == inject_Z (scalefactor * (xg / scalefactor))
    /\ ycenter == inject_Z (scalefactor * (yg / scalefactor))
    /\ (xg - scalefactor < scalefactor * (xg / scalefactor) <= xg)%Z
    /\ (yg - scalefactor < scalefactor * (yg / scalefactor) <= yg)%Z
    /\ (xcenter == inject_Z xg <-> (xg mod scalefactor = 0)%Z)
    /\ (ycenter == inject_Z yg <-> (yg mod scalefactor = 0)%Z).
Proof.
  intros Hsf Hmin. unfold fCenter_int; cbv zeta. rewrite Hmin.
  cbn [bind fst snd]. eexists; eexists. split; [reflexivity|].
  assert (Hm : forall g, inject_Z (g / scalefactor) * inject_Z scalefactor
                         == inject_Z (scalefactor * (g / scalefactor))).
  { intros g. rewrite <- inject_Z_mult. now rewrite Z.mul_comm. }
  assert (Hb : forall g, (g - scalefactor < scalefactor * (g / scalefactor)
                          <= g)%Z).
  { intros g. pose proof (Z.div_mod g scalefactor ltac:(lia)).
    pose proof (Z.mod_pos_bound g scalefactor Hsf). lia. }
  assert (Hi : forall g, inject_Z (g / scalefactor) * inject_Z scalefactor
                         == inject_Z g <-> (g mod scalefactor = 0)%Z).
  { intros g. rewrite Hm. rewrite inject_Z_injective.
    pose proof (Z.div_mod g scalefactor ltac:(lia)). lia. }
  repeat split; try apply Hm; try apply Hb; try apply Hi.
Qed.

Lemma fCenter_int_rounds_guess_down_witness :
  ((0 < 20)%Z
   /\ (fun (_ : Q * Q * Q -> result (option Q)) x0 => Ok x0) (c1 test_image3)
        (inject_Z (512 / 20), inject_Z (500 / 20), inject_Z (100 / 20))
      = Ok (inject_Z (512 / 20), inject_Z (500 / 20), inject_Z (100 / 20)))
  /\ fCenter_int (fun _ x0 => Ok x0) 512 500 100 test_image3 20
     = Ok (500, 500, 100%Z)
  /\ exists xcenter ycenter,
       fCenter_int (fun _ x0 => Ok x0) 512 500 100 test_image3 20
       = Ok (xcenter, ycenter, 100%Z)
       /\ xcenter == inject_Z (20 * (512 / 20))
       /\ ycenter == inject_Z (20 * (500 / 20))
       /\ (512 - 20 < 20 * (512 / 20) <= 512)%Z
       /\ (500 - 20 < 20 * (500 / 20) <= 500)%Z
       /\ (xcenter == inject_Z 512 <-> (512 mod 20 = 0)%Z)
       /\ (ycenter == inject_Z 500 <-> (500 mod 20 = 0)%Z).
Proof.
  split; [split; [lia | reflexivity]|]. split; [reflexivity|].
  apply (fCenter_int_rounds_guess_down (fun _ x0 => Ok x0) 512 500 100
           test_image3 20); [lia | reflexivity].
Defined.

(* ------------------------------------------------------------------ *)
(** * Further properties of the radial averager *)

Lemma enumerate_in {A} (l : list A) (k : nat) (a : A) :
  nth_error l k = Some a -> In (k, a) (enumerate l).
Proof.
  unfold enumerate.
  assert (G : forall s m, nth_error l m = Some a ->
                          In ((s + m)%nat, a) (combine (seq s (length l)) l)).
  { induction l as [|b l IH]; intros s [|m] H; try discriminate.
    - injection H as ->. rewrite Nat.add_0_r. now left.
    - right. rewrite Nat.add_succ_r. apply (IH (S s) m H). }
  intros H. exact (G 0%nat k H).
Qed.

Lemma ndenumerate_in (im : list (list Q)) (i j : nat) (row : list Q) (v : Q) :
  nth_error im i = Some row -> nth_error row j = Some v ->
  In (i, j, v) (ndenumerate im).
Proof.
  intros Hrow Hv. unfold ndenumerate. apply in_concat.
  exists (map (fun jv : nat * Q => (i, fst jv, snd jv)) (enumerate row)).
  split.
  - apply in_map_iff. exists (i, row). split; [reflexivity|].
    now apply enumerate_in.
  - apply in_map_iff. exists (j, v). split; [reflexivity|].
    now apply enumerate_in.
Qed.

Lemma foldM_raises {A S} (f : S -> A -> result S) (e : exn) (l : list A)
  (a : A) :
  (forall s x e', f s x = Raise e' -> e' = e) ->
  In a l -> (forall s, f s a = Raise e) ->
  forall s, foldM f l s = Raise e.
Proof.
  intros Hall. induction l as [|x l IH]; intros Hin Ha s; [contradiction|].
  cbn [foldM]. destruct (f s x) as [s'|e'] eqn:Hx; cbn [bind].
  - destruct Hin as [-> | Hin]; [rewrite Ha in Hx; discriminate|].
    now apply IH.
  - now rewrite (Hall s x e' Hx).
Qed.

Lemma bin_pixel_raises_IndexError R keys c0 st px e :
  bin_pixel R keys c0 st px = Raise e -> e = IndexError.
Proof.
  unfold bin_pixel. destruct (Qltb _ _); [discriminate|].
  unfold item2. destruct (nth_error R _) as [row|]; [|cbn; congruence].
  destruct (nth_error row _); cbn; congruence.
Qed.

Lemma zip2d_meshgrid {C} (f : Q -> Q -> C) (xs ys : list Q) :
  zip2d f (fst (meshgrid xs ys)) (snd (meshgrid xs ys))
  = map (fun y => map (fun x => f x y) xs) ys.
Proof.
  unfold zip2d, meshgrid; cbn [fst snd].
  induction ys as [|y ys IH]; [reflexivity|].
  cbn [map]. rewrite map2_cons, IH. f_equal.
  clear IH. induction xs as [|x xs IHx]; [reflexivity|].
  cbn [map]. rewrite map2_cons. now rewrite IHx.
Qed.

(** On an image that is not square, unless every row is skipped, the
    averager raises [IndexError]: the array of radii has the shape of the
    transposed image. *)
Theorem radialAverage_not_square (a b : nat) (im : list (list Q))
  (xc yc : Q) :
  rectangular a b im -> a <> b -> (0 < a)%nat -> (0 < b)%nat ->
  xc <= Qofnat (a - 1) ->
  radialAverage im [xc; yc] = Raise IndexError.
Proof.
  intros [Hlen Hrows] Hab Ha Hb Hxc. unfold radialAverage; cbv zeta.
  assert (Hs0 : shape0 im = a) by exact Hlen.
  assert (Hs1 : shape1 im = b).
  { unfold shape1. destruct im as [|row im]; [cbn in Hlen; lia|].
    now inversion Hrows. }
  rewrite Hs0, Hs1, zip2d_meshgrid.
  destruct (nth_error im (a - 1)%nat) as [row|] eqn:Hrow;
    [|apply nth_error_None in Hrow; lia].
  assert (Hrl : length row = b).
  { rewrite Forall_forall in Hrows. apply Hrows.
    now apply nth_error_In with (n := (a - 1)%nat). }
  set (j := if (b <? a)%nat then 0%nat else a).
  assert (Hj : (j < b)%nat).
  { subst j. destruct (Nat.ltb_spec b a); lia. }
  destruct (nth_error row j) as [v|] eqn:Hv;
    [|apply nth_error_None in Hv; lia].
  rewrite (foldM_raises _ IndexError _ ((a - 1)%nat, j, v));
    [reflexivity | | |].
  - intros st px e. apply bin_pixel_raises_IndexError.
  - now apply ndenumerate_in with (row := row).
  - intros st. unfold bin_pixel; cbn [fst snd].
    replace (Qltb (Qofnat (a - 1)) xc) with false
      by (symmetry; now apply Qltb_ge).
    unfold item2. rewrite nth_error_map.
    destruct (nth_error (linspace 0 (Qofnat b) b) (a - 1)%nat) as [y|] eqn:Hy;
      [|reflexivity].
    cbn [option_map]. rewrite nth_error_map.
    assert (Hlt : (a - 1 < b)%nat).
    { rewrite <- (linspace_length 0 (Qofnat b) b).
      apply nth_error_Some. congruence. }
    assert (Hja : j = a).
    { subst j. destruct (Nat.ltb_spec b a); [lia | reflexivity]. }
    replace (nth_error (linspace 0 (Qofnat a) a) j) with (@None Q);
      [reflexivity|].
    symmetry. apply nth_error_None. rewrite linspace_length. lia.
Qed.

Lemma radialAverage_not_square_witness :
  (rectangular 2 3 [[1; 2; 3]; [4; 5; 6]] /\ 2%nat <> 3%nat
   /\ (0 < 2)%nat /\ (0 < 3)%nat /\ 1 <= Qofnat (2 - 1))
  /\ radialAverage [[1; 2; 3]; [4; 5; 6]] [1; 1] = Raise IndexError.
Proof.
  assert (Hr : rectangular 2 3 [[1; 2; 3]; [4; 5; 6]])
    by (split; [reflexivity | repeat constructor]).
  split.
  - repeat split; try lia; try discriminate. exact (proj2 Hr).
  - apply (radialAverage_not_square 2 3 _ 1 1 Hr);
      [lia | lia | lia | discriminate].
Defined.

Lemma ndenumerate_square_ex (n : nat) (im : list (list Q)) (i j : nat) :
  square n im -> (i < n)%nat -> (j < n)%nat ->
  exists v, In (i, j, v) (ndenumerate im).
Proof.
  intros [Hlen Hrows] Hi Hj.
  destruct (nth_error im i) as [row|] eqn:Hrow;
    [|apply nth_error_None in Hrow; lia].
  assert (Hrl : length row = n).
  { rewrite Forall_forall in Hrows. apply Hrows.
    now apply nth_error_In with (n := i). }
  destruct (nth_error row j) as [v|] eqn:Hv;
    [|apply nth_error_None in Hv; lia].
  exists v. now apply ndenumerate_in with (row := row).
Qed.

Lemma radialAverage_radii_cover (n : nat) (im : list (list Q))
  (xc yc : Q) (radii : list Z) (intensities : list Q) :
  square n im ->
  radialAverage im [xc; yc] = Ok (radii, intensities) ->
  forall r, In r radii
            <-> exists px, In px (ndenumerate im)
                           /\ pixel_radius n xc yc px = r.
Proof.
  intros Hsq Hres r.
  destruct (radialAverage_square n im xc yc Hsq) as [radii' [H Hr]].
  rewrite H in Hres. injection Hres as <- _. rewrite Hr.
  rewrite in_unique, zip2d_meshgrid.
  rewrite (shape1_square n im Hsq). unfold shape0. rewrite (proj1 Hsq).
  rewrite in_concat. split.
  - intros [row [Hrow Hin]]. apply in_map_iff in Hrow.
    destruct Hrow as [y [<- Hy]]. apply in_map_iff in Hin.
    destruct Hin as [x [<- Hx]].
    apply (In_nth _ _ 0) in Hy. destruct Hy as [i [Hi <-]].
    apply (In_nth _ _ 0) in Hx. destruct Hx as [j [Hj <-]].
    rewrite linspace_length in Hi, Hj.
    destruct (ndenumerate_square_ex n im i j Hsq Hi Hj) as [v Hv].
    exists (i, j, v). split; [exact Hv | reflexivity].
  - intros [px [Hpx <-]].
    destruct (in_ndenumerate_square n im px Hsq Hpx) as [Hi Hj].
    exists (map (fun x => around_sqrt
                   ((x - xc) ^ 2
                    + (nth (fst (fst px)) (linspace 0 (Qofnat n) n) 0 - yc) ^ 2))
                (linspace 0 (Qofnat n) n)).
    split.
    + apply in_map_iff. eexists. split; [reflexivity|].
      apply nth_In. now rewrite linspace_length.
    + apply in_map_iff. exists (axis_coordinate n (snd (fst px))).
      split; [reflexivity|].
      apply nth_In. now rewrite linspace_length.
Qed.

(** C5: for a square image the averager returns; the bins it returns are
    the rounded distances of the pixels of the image, those of the skipped
    rows included; and the intensity returned for a bin is the quotient
    [a / c] of the sum [a] of the pixels accumulated under that radius by
    [c], one more than their number; the divisor is positive, so no
    division by zero occurs. *)
Theorem radialAverage_bin_mean (n : nat) (im : list (list Q)) (xc yc : Q) :
  square n im ->
  exists radii intensities,
    radialAverage im [xc; yc] = Ok (radii, intensities)
    /\ (forall r, In r radii
                  <-> exists px, In px (ndenumerate im)
                                 /\ pixel_radius n xc yc px = r)
    /\ Forall2
         (fun r v =>
            exists a c,
              v = a / c
              /\ a == Qsum (map snd (bin_pixels n im xc yc r))
              /\ c == 1 + Qofnat (length (bin_pixels n im xc yc r))
              /\ 0 < c)
         radii intensities.
Proof.
  intros Hsq. destruct (radialAverage_square n im xc yc Hsq) as [radii [H _]].
  eexists; eexists. split; [exact H|]. split.
  { exact (radialAverage_radii_cover n im xc yc _ _ Hsq H). }
  apply Forall2_map_diag. intros r _.
  eexists; eexists. split; [reflexivity|].
  assert (Hc : tally (fun px => contributes xc px
                                && (r =? pixel_radius n xc yc px)%Z)
                 (fun _ => 1) (ndenumerate im) 1
               == 1 + Qofnat (length (bin_pixels n im xc yc r))).
  { rewrite tally_sum, Qsum_ones. reflexivity. }
  split; [|split].
  - rewrite tally_sum. unfold bin_pixels. ring.
  - exact Hc.
  - rewrite Hc. pose proof (Qofnat_nonneg (length (bin_pixels n im xc yc r))).
    apply Qlt_le_trans with (y := 1 + 0); [reflexivity|].
    apply Qplus_le_r. assumption.
Qed.

Lemma radialAverage_bin_mean_witness :
  square 3 test_image3
  /\ radialAverage test_image3 [1; 1]
     = Ok ([1; 2; 3]%Z, [9 # 3; 21 # 4; 9 # 2])
  /\ exists radii intensities,
       radialAverage test_image3 [1; 1] = Ok (radii, intensities)
       /\ (forall r, In r radii
                     <-> exists px, In px (ndenumerate test_image3)
                                    /\ pixel_radius 3 1 1 px = r)
       /\ Forall2
            (fun r v =>
               exists a c,
                 v = a / c
                 /\ a == Qsum (map snd (bin_pixels 3 test_image3 1 1 r))
                 /\ c == 1 + Qofnat (length (bin_pixels 3 test_image3 1 1 r))
                 /\ 0 < c)
            radii intensities.
Proof.
  assert (Hsq : square 3 test_image3) by (split; [reflexivity | repeat constructor]).
  split; [exact Hsq|]. split; [reflexivity|].
  exact (radialAverage_bin_mean 3 test_image3 1 1 Hsq).
Defined.

(** The bins are the rounded distances of the pixels, those of the skipped
    rows included: a radius is returned if and only if it is the radius of
    some pixel of the image. *)
Theorem radialAverage_bins_are_pixel_radii (n : nat) (im : list (list Q))
  (xc yc : Q) (radii : list Z) (intensities : list Q) :
  square n im ->
  radialAverage im [xc; yc] = Ok (radii, intensities) ->
  forall r, In r radii
            <-> exists px, In px (ndenumerate im)
                           /\ pixel_radius n xc yc px = r.
Proof.
  intros Hsq Hres r.
  exact (radialAverage_radii_cover n im xc yc radii intensities Hsq Hres r).
Qed.

Lemma radialAverage_bins_are_pixel_radii_witness :
  (square 3 test_image3
   /\ radialAverage test_image3 [1; 1]
      = Ok ([1; 2; 3]%Z, [9 # 3; 21 # 4; 9 # 2]))
  /\ (In 3%Z [1; 2; 3]%Z
      <-> exists px, In px (ndenumerate test_image3)
                     /\ pixel_radius 3 1 1 px = 3%Z).
Proof.
  assert (Hsq : square 3 test_image3)
    by (split; [reflexivity | repeat constructor]).
  split; [split; [exact Hsq | reflexivity]|].
  exact (radialAverage_bins_are_pixel_radii 3 test_image3 1 1 _ _ Hsq
           eq_refl 3%Z).
Defined.

Lemma filter_none {A} (f : A -> bool) (l : list A) :
  (forall x, In x l -> f x = false) -> filter f l = [].
Proof.
  induction l as [|a l IH]; intros H; [reflexivity|].
  cbn [filter]. rewrite (H a (or_introl eq_refl)).
  apply IH. intros x Hx. apply H. now right.
Qed.

(** When [center[0]] exceeds the index of the last row every row is
    skipped: the bins returned are still the rounded distances of all the
    pixels of the image, one intensity each, and every intensity is 0. *)
Theorem radialAverage_all_rows_skipped (n : nat) (im : list (list Q))
  (xc yc : Q) :
  square n im -> Qofnat n - 1 < xc ->
  exists radii intensities,
    radialAverage im [xc; yc] = Ok (radii, intensities)
    /\ (forall r, In r radii
                  <-> exists px, In px (ndenumerate im)
                                 /\ pixel_radius n xc yc px = r)
    /\ length intensities = length radii
    /\ Forall (fun v => v == 0) intensities.
Proof.
  intros Hsq Hxc.
  destruct (radialAverage_square n im xc yc Hsq) as [radii [H _]].
  eexists; eexists. split; [exact H|]. split.
  { exact (radialAverage_radii_cover n im xc yc _ _ Hsq H). }
  split; [apply length_map|].
  apply Forall_forall. intros v Hv. apply in_map_iff in Hv.
  destruct Hv as [r [<- _]].
  assert (E : filter (fun px => contributes xc px
                                && (r =? pixel_radius n xc yc px)%Z)
                (ndenumerate im) = []).
  { apply filter_none. intros px Hpx.
    destruct (in_ndenumerate_square n im px Hsq Hpx) as [Hi _].
    unfold contributes.
    replace (Qltb (Qofnat (fst (fst px))) xc) with true; [reflexivity|].
    symmetry. apply Qltb_lt. eapply Qle_lt_trans; [|exact Hxc].
    apply Qplus_le_l with (z := 1). rewrite <- Qofnat_S.
    setoid_replace (Qofnat n - 1 + 1) with (Qofnat n) by ring.
    unfold Qofnat. rewrite <- Zle_Qle. lia. }
  rewrite tally_sum, E. cbn [map Qsum fold_right]. unfold Qdiv. ring.
Qed.

Lemma radialAverage_all_rows_skipped_witness :
  (square 3 test_image3 /\ Qofnat 3 - 1 < 5 # 2)
  /\ radialAverage test_image3 [5 # 2; 1]
     = Ok ([1; 2; 3]%Z, [0; 0; 0])
  /\ exists radii intensities,
       radialAverage test_image3 [5 # 2; 1] = Ok (radii, intensities)
       /\ (forall r, In r radii
                     <-> exists px, In px (ndenumerate test_image3)
                                    /\ pixel_radius 3 (5 # 2) 1 px = r)
       /\ length intensities = length radii
       /\ Forall (fun v => v == 0) intensities.
Proof.
  assert (Hsq : square 3 test_image3)
    by (split; [reflexivity | repeat constructor]).
  split; [split; [exact Hsq | reflexivity]|]. split; [reflexivity|].
  exact (radialAverage_all_rows_skipped 3 test_image3 (5 # 2) 1 Hsq eq_refl).
Defined.

Lemma Qsum_map_ext {A} (f g : A -> Q) (l : list A) :
  (forall a, f a == g a) -> Qsum (map f l) == Qsum (map g l).
Proof.
  intros H. induction l as [|a l IH]; [reflexivity|].
  unfold Qsum in *. cbn [map fold_right]. now rewrite H, IH.
Qed.

(** Adding a weight to the one cell of a strictly sorted list of keys that
    carries a given key adds that weight to the total. *)
Lemma Qsum_select_one (keys : list Z) (r : Z) (w : Q) (a : Z -> Q) :
  StronglySorted Z.lt keys -> In r keys ->
  Qsum (map (fun k => if (k =? r)%Z then w + a k else a k) keys)
  == w + Qsum (map a keys).
Proof.
  induction 1 as [|k keys Hs IH Hk]; intros Hin; [contradiction|].
  unfold Qsum in *. cbn [map fold_right].
  destruct (Z.eqb_spec k r) as [-> | Hne].
  - assert (E : map (fun k => if (k =? r)%Z then w + a k else a k) keys
                = map a keys).
    { apply map_ext_in. intros k' Hk'. rewrite Forall_forall in Hk.
      specialize (Hk k' Hk'). destruct (Z.eqb_spec k' r); [lia | reflexivity]. }
    rewrite E. ring.
  - destruct Hin as [-> | Hin]; [congruence|].
    rewrite (IH Hin). ring.
Qed.

(** The cells of a strictly sorted list of keys that covers the keys of the
    selected entries share out their weights. *)
Lemma Qsum_partition (keys : list Z) (sel : nat * nat * Q -> bool)
  (rad : nat * nat * Q -> Z) (w : nat * nat * Q -> Q)
  (ps : list (nat * nat * Q)) :
  StronglySorted Z.lt keys ->
  (forall px, In px ps -> In (rad px) keys) ->
  Qsum (map (fun k => Qsum (map w (filter (fun px => sel px
                                            && (k =? rad px)%Z) ps))) keys)
  == Qsum (map w (filter sel ps)).
Proof.
  intros Hs. induction ps as [|px ps IH]; intros Hin.
  - cbn [filter map]. clear Hs Hin.
    induction keys as [|k keys IHk]; [reflexivity|].
    unfold Qsum in *. cbn [map fold_right] in *. rewrite IHk. ring.
  - cbn [filter]. destruct (sel px) eqn:Hsel; cbn [andb].
    + assert (E : map (fun k => Qsum (map w
                     (if (k =? rad px)%Z
                      then px :: filter (fun q => sel q && (k =? rad q)%Z) ps
                      else filter (fun q => sel q && (k =? rad q)%Z) ps)))
                    keys
                  = map (fun k => if (k =? rad px)%Z
                      then w px + Qsum (map w (filter
                             (fun q => sel q && (k =? rad q)%Z) ps))
                      else Qsum (map w (filter
                             (fun q => sel q && (k =? rad q)%Z) ps))) keys).
      { apply map_ext. intros k. now destruct (k =? rad px)%Z. }
      rewrite E.
      rewrite (Qsum_select_one keys (rad px) (w px)
                 (fun k => Qsum (map w (filter
                    (fun q => sel q && (k =? rad q)%Z) ps))) Hs)
        by (apply Hin; now left).
      rewrite IH by (intros q Hq; apply Hin; now right).
      reflexivity.
    + apply IH. intros q Hq. apply Hin. now right.
Qed.

(** Every pixel that passes the row test is accumulated in exactly one
    bin: over the returned radii, the sums of the bins add up to the sum
    of those pixels, and the sizes of the bins to their number. *)
Theorem radialAverage_bins_partition (n : nat) (im : list (list Q))
  (xc yc : Q) (radii : list Z) (intensities : list Q) :
  square n im ->
  radialAverage im [xc; yc] = Ok (radii, intensities) ->
  Qsum (map (fun r => Qsum (map snd (bin_pixels n im xc yc r))) radii)
  == Qsum (map snd (filter (contributes xc) (ndenumerate im)))
  /\ Qsum (map (fun r => Qofnat (length (bin_pixels n im xc yc r))) radii)
     == Qofnat (length (filter (contributes xc) (ndenumerate im))).
Proof.
  intros Hsq Hres.
  assert (Hs : StronglySorted Z.lt radii).
  { destruct (radialAverage_square n im xc yc Hsq) as [radii' [H Hr]].
    rewrite H in Hres. injection Hres as <- _. rewrite Hr.
    apply unique_sorted. }
  assert (Hcover : forall px, In px (ndenumerate im) ->
                              In (pixel_radius n xc yc px) radii).
  { intros px Hpx.
    apply (radialAverage_radii_cover n im xc yc radii intensities Hsq Hres).
    now exists px. }
  split.
  - apply (Qsum_partition radii (contributes xc) (pixel_radius n xc yc) snd
             (ndenumerate im) Hs Hcover).
  - rewrite <- Qsum_ones.
    rewrite <- (Qsum_partition radii (contributes xc) (pixel_radius n xc yc)
                  (fun _ => 1) (ndenumerate im) Hs Hcover).
    apply Qsum_map_ext. intros r. unfold bin_pixels.
    symmetry. apply Qsum_ones.
Qed.

Lemma radialAverage_bins_partition_witness :
  (square 3 test_image3
   /\ radialAverage test_image3 [1; 1]
      = Ok ([1; 2; 3]%Z, [9 # 3; 21 # 4; 9 # 2]))
  /\ Qsum (map (fun r => Qsum (map snd (bin_pixels 3 test_image3 1 1 r)))
              [1; 2; 3]%Z)
     == Qsum (map snd (filter (contributes 1) (ndenumerate test_image3))).
Proof.
  assert (Hsq : square 3 test_image3)
    by (split; [reflexivity | repeat constructor]).
  split; [split; [exact Hsq | reflexivity]|].
  exact (proj1 (radialAverage_bins_partition 3 test_image3 1 1 _ _ Hsq
                  eq_refl)).
Defined.

Lemma Qsum_bounds (M : Q) (l : list Q) :
  (forall x, In x l -> 0 <= x <= M) ->
  0 <= Qsum l <= Qofnat (length l) * M.
Proof.
  induction l as [|a l IH]; intros H.
  - cbn. split; [apply Qle_refl | discriminate].
  - destruct (H a (or_introl eq_refl)) as [Ha0 HaM].
    destruct (IH (fun x Hx => H x (or_intror Hx))) as [H0 HM].
    unfold Qsum in *. cbn [fold_right length]. rewrite Qofnat_S. split.
    + apply (Qplus_le_compat 0 a 0 _ Ha0 H0).
    + setoid_replace ((Qofnat (length l) + 1) * M)
        with (M + Qofnat (length l) * M) by ring.
      now apply Qplus_le_compat.
Qed.

Lemma in_ndenumerate_value (im : list (list Q)) (P : Q -> Prop)
  (px : nat * nat * Q) :
  Forall (Forall P) im -> In px (ndenumerate im) -> P (snd px).
Proof.
  intros Him Hpx. destruct (in_ndenumerate im px Hpx) as [row [Hrow Hv]].
  rewrite Forall_forall in Him.
  specialize (Him row (nth_error_In _ _ Hrow)).
  rewrite Forall_forall in Him. apply Him. exact (nth_error_In _ _ Hv).
Qed.

(** When all the pixels lie between 0 and [M], so do all the returned
    intensities. *)
Theorem radialAverage_intensity_bounds (n : nat) (im : list (list Q))
  (xc yc M : Q) :
  square n im ->
  Forall (Forall (fun v => 0 <= v <= M)) im ->
  exists radii intensities,
    radialAverage im [xc; yc] = Ok (radii, intensities)
    /\ Forall (fun v => 0 <= v <= M) intensities.
Proof.
  intros Hsq Him.
  destruct (radialAverage_square n im xc yc Hsq) as [radii [H Hr]].
  eexists; eexists. split; [exact H|].
  apply Forall_forall. intros v Hv. apply in_map_iff in Hv.
  destruct Hv as [r [<- Hrin]].
  set (B := filter (fun px => contributes xc px
                              && (r =? pixel_radius n xc yc px)%Z)
                   (ndenumerate im)).
  assert (HM : 0 <= M).
  { destruct (proj1 (radialAverage_radii_cover n im xc yc radii _ Hsq H r)
                Hrin) as [px [Hpx _]].
    destruct (in_ndenumerate_value im _ px Him Hpx) as [H0 H1].
    eapply Qle_trans; eauto. }
  assert (HB : forall x, In x (map snd B) -> 0 <= x <= M).
  { intros x Hx. apply in_map_iff in Hx. destruct Hx as [px [<- Hpx]].
    apply filter_In in Hpx. destruct Hpx as [Hpx _].
    exact (in_ndenumerate_value im _ px Him Hpx). }
  destruct (Qsum_bounds M (map snd B) HB) as [S0 SM].
  rewrite length_map in SM.
  assert (HC : tally (fun px => contributes xc px
                                && (r =? pixel_radius n xc yc px)%Z)
                 (fun _ => 1) (ndenumerate im) 1
               == 1 + Qofnat (length B)).
  { rewrite tally_sum, Qsum_ones. reflexivity. }
  assert (HA : tally (fun px => contributes xc px
                                && (r =? pixel_radius n xc yc px)%Z)
                 snd (ndenumerate im) 0
               == Qsum (map snd B)).
  { rewrite tally_sum. fold B. ring. }
  pose proof (Qofnat_nonneg (length B)) as HL.
  assert (HCpos : 0 < 1 + Qofnat (length B)).
  { apply Qlt_le_trans with (y := 1 + 0); [reflexivity|].
    now apply Qplus_le_r. }
  rewrite HA, HC. split.
  - apply Qle_shift_div_l; [exact HCpos|]. now rewrite Qmult_0_l.
  - apply Qle_shift_div_r; [exact HCpos|].
    eapply Qle_trans; [exact SM|].
    setoid_replace (M * (1 + Qofnat (length B)))
      with (M + Qofnat (length B) * M) by ring.
    rewrite <- (Qplus_0_l (Qofnat (length B) * M)) at 1.
    now apply Qplus_le_l.
Qed.

Lemma radialAverage_intensity_bounds_witness :
  (square 3 test_image3
   /\ Forall (Forall (fun v => 0 <= v <= 9)) test_image3)
  /\ exists radii intensities,
       radialAverage test_image3 [1; 1] = Ok (radii, intensities)
       /\ Forall (fun v => 0 <= v <= 9) intensities.
Proof.
  assert (Hsq : square 3 test_image3)
    by (split; [reflexivity | repeat constructor]).
  assert (Him : Forall (Forall (fun v => 0 <= v <= 9)) test_image3)
    by (repeat constructor; discriminate).
  split; [split; assumption|].
  exact (radialAverage_intensity_bounds 3 test_image3 1 1 9 Hsq Him).
Defined.

(* ------------------------------------------------------------------ *)
(** * Further properties of the background subtractor *)

Lemma mapM_length {A B} (f : A -> result B) (l : list A) (r : list B) :
  mapM f l = Ok r -> length r = length l.
Proof.
  revert r. induction l as [|a l IH]; intros r; cbn [mapM].
  - intros H. now injection H as <-.
  - destruct (f a); cbn [bind]; [|discriminate].
    destruct (mapM f l) as [bs|]; cbn [bind]; [|discriminate].
    intros H. injection H as <-. cbn [length]. f_equal. now apply IH.
Qed.

Lemma mapM_Ok {A B} (f : A -> result B) (l : list A) :
  (forall a, In a l -> exists b, f a = Ok b) ->
  exists r, mapM f l = Ok r.
Proof.
  induction l as [|a l IH]; intros H; [now exists []|].
  destruct (H a (or_introl eq_refl)) as [b Hb].
  destruct (IH (fun x Hx => H x (or_intror Hx))) as [r Hr].
  exists (b :: r). cbn [mapM]. now rewrite Hb, Hr.
Qed.

Lemma mapM_nth {A B} (f : A -> result B) (l : list A) (r : list B)
  (m : nat) (a : A) :
  mapM f l = Ok r -> nth_error l m = Some a ->
  exists b, f a = Ok b /\ nth_error r m = Some b.
Proof.
  revert r m. induction l as [|x l IH]; intros r m; cbn [mapM].
  - intros _ H. destruct m; discriminate.
  - destruct (f x) as [b|] eqn:Hx; cbn [bind]; [|discriminate].
    destruct (mapM f l) as [bs|]; cbn [bind]; [|discriminate].
    intros H. injection H as <-. destruct m as [|m]; cbn [nth_error].
    + intros E. injection E as <-. now exists b.
    + intros E. now apply IH.
Qed.

Lemma arange_length (start stop : Z) :
  length (arange start stop) = Z.to_nat (stop - start).
Proof. unfold arange. now rewrite length_map, length_seq. Qed.

Lemma arange_in (start stop k : Z) :
  In k (arange start stop) -> (start <= k < stop)%Z.
Proof.
  unfold arange. rewrite in_map_iff. intros [m [<- Hm]].
  apply in_seq in Hm. lia.
Qed.

Lemma take1_Ok (a : list Q) (k : Z) :
  (- Z.of_nat (length a) <= k < Z.of_nat (length a))%Z ->
  exists v, take1 a k = Ok v.
Proof.
  intros Hk. unfold take1.
  replace (k <? - Z.of_nat (length a))%Z with false
    by (symmetry; apply Z.ltb_ge; lia).
  replace (Z.of_nat (length a) <=? k)%Z with false
    by (symmetry; apply Z.leb_gt; lia).
  cbn [orb].
  destruct (nth_error a _) as [v|] eqn:Hv; [now exists v|].
  apply nth_error_None in Hv. destruct (Z.ltb_spec k 0); lia.
Qed.

Lemma argmin_Ok (l : list Q) : l <> [] -> exists ind, argmin l = Ok ind.
Proof. destruct l; [congruence | intros _; eexists; reflexivity]. Qed.

(** The output is the input abscissa and one background value per
    sample. *)
Theorem inelasticBGSubstract_output_shape
  (curve_fit : list Q -> list Q -> list Q -> option (list Q))
  (xdata ydata : list Q) (points : list (Q * Q)) (chunk_size : Z)
  (xout background : list Q) :
  inelasticBGSubstract curve_fit xdata ydata points chunk_size
  = Ok (xout, background) ->
  xout = xdata /\ length background = length xdata.
Proof.
  unfold inelasticBGSubstract.
  destruct (first_column points); cbn [bind]; [|discriminate].
  destruct (mapM _ _) as [chunks|]; cbn [bind]; [|discriminate].
  destruct (mapM _ chunks) as [constants|]; cbn [bind]; [|discriminate].
  unfold interp. destruct (concat (map fst chunks)); [discriminate|].
  destruct (Nat.eqb _ _); cbn [bind]; [|discriminate].
  intros H. injection H as <- <-. split; [reflexivity|].
  now rewrite length_map.
Qed.

Lemma inelasticBGSubstract_output_shape_witness :
  inelasticBGSubstract immediate_fit demo_xdata demo_ydata [(1, 0)] 2
  = Ok (demo_xdata, [3; 3; 3; 3; 3; 3; 3; 3; 3; 3; 3; 3])
  /\ demo_xdata = demo_xdata
  /\ length [3; 3; 3; 3; 3; 3; 3; 3; 3; 3; 3; 3] = length demo_xdata.
Proof.
  split; [reflexivity|].
  exact (inelasticBGSubstract_output_shape immediate_fit demo_xdata
           demo_ydata [(1, 0)] 2 _ _ eq_refl).
Defined.

Lemma chunk_of_range (xdata ydata : list Q) (chunk_size : Z)
  (feature : Q) :
  xdata <> [] -> length ydata = length xdata -> (0 <= chunk_size)%Z ->
  (overruns_right xdata chunk_size feature = false ->
   exists xchunk ychunk,
     chunk_of xdata ydata chunk_size feature = Ok (xchunk, ychunk)
     /\ length xchunk = Z.to_nat (2 * chunk_size + 1)
     /\ length ychunk = Z.to_nat (2 * chunk_size + 1))
  /\ (overruns_right xdata chunk_size feature = true ->
      chunk_of xdata ydata chunk_size feature = Raise IndexError).
Proof.
  intros Hne Hlen Hcs. unfold overruns_right, chunk_of.
  destruct (argmin_Ok (map (fun x => Qabs (x - feature)) xdata))
    as [ind Hind].
  { intros E. apply map_eq_nil in E. contradiction. }
  rewrite Hind. cbn [bind]. split.
  - intros Hover. apply Z.leb_gt in Hover.
    assert (Hall : forall a, length a = length xdata ->
              forall k, In k (arange (Z.of_nat ind - chunk_size)
                                     (Z.of_nat ind + chunk_size + 1)) ->
                        exists v, take1 a k = Ok v).
    { intros a Ha k Hk. apply arange_in in Hk. apply take1_Ok.
      rewrite Ha. lia. }
    destruct (mapM_Ok _ _ (Hall xdata eq_refl)) as [xchunk Hx].
    destruct (mapM_Ok _ _ (Hall ydata Hlen)) as [ychunk Hy].
    exists xchunk, ychunk. unfold take. rewrite Hx, Hy. cbn [bind].
    split; [reflexivity|].
    apply mapM_length in Hx. apply mapM_length in Hy.
    rewrite arange_length in Hx, Hy. split; [rewrite Hx | rewrite Hy]; lia.
  - intros Hover. apply Z.leb_le in Hover. unfold take.
    rewrite (mapM_raises (take1 xdata) IndexError _
               (Z.of_nat ind + chunk_size)%Z); [reflexivity | | |].
    + apply take1_raises_IndexError.
    + apply in_arange. lia.
    + unfold take1.
      replace (Z.of_nat (length xdata) <=? Z.of_nat ind + chunk_size)%Z
        with true by (symmetry; now apply Z.leb_le).
      now rewrite orb_true_r.
Qed.

(** For a non-negative chunk size and curves of equal, nonzero length the
    chunk of a feature is extracted, with [2*chunk_size + 1] samples of
    each curve, exactly when its window does not reach past the end of the
    curve; otherwise [IndexError] is raised. *)
Theorem chunk_of_bounds (xdata ydata : list Q) (chunk_size : Z)
  (feature : Q) :
  xdata <> [] -> length ydata = length xdata -> (0 <= chunk_size)%Z ->
  (overruns_right xdata chunk_size feature = false ->
   exists xchunk ychunk,
     chunk_of xdata ydata chunk_size feature = Ok (xchunk, ychunk)
     /\ length xchunk = Z.to_nat (2 * chunk_size + 1)
     /\ length ychunk = Z.to_nat (2 * chunk_size + 1))
  /\ (overruns_right xdata chunk_size feature = true ->
      chunk_of xdata ydata chunk_size feature = Raise IndexError).
Proof.
  intros Hne Hlen Hcs.
  exact (chunk_of_range xdata ydata chunk_size feature Hne Hlen Hcs).
Qed.

Lemma chunk_of_bounds_witness :
  (demo_xdata <> [] /\ length demo_ydata = length demo_xdata /\ (0 <= 2)%Z
   /\ overruns_right demo_xdata 2 1 = false)
  /\ exists xchunk ychunk,
       chunk_of demo_xdata demo_ydata 2 1 = Ok (xchunk, ychunk)
       /\ length xchunk = Z.to_nat (2 * 2 + 1)
       /\ length ychunk = Z.to_nat (2 * 2 + 1).
Proof.
  split; [repeat split; try discriminate; lia|].
  apply (chunk_of_bounds demo_xdata demo_ydata 2 1);
    [discriminate | reflexivity | lia | reflexivity].
Defined.

Lemma interp1_flat (x k : Q) (xp : list Q) :
  xp <> [] -> interp1 xp (map (fun _ => k) xp) x == k.
Proof.
  destruct xp as [|x0 xp]; [congruence|]. intros _. cbn [map interp1].
  destruct (Qltb x x0); [reflexivity | apply interp_seg_flat].
Qed.

(** With a single feature whose chunk is extracted, with increasing
    abscissae, and whose fit gives the constant [c], the background is [c]
    over the whole curve. *)
Theorem background_single_feature
  (curve_fit : list Q -> list Q -> list Q -> option (list Q))
  (xdata ydata : list Q) (f v : Q) (chunk_size : Z)
  (xchunk ychunk : list Q) (c : Q) :
  (0 <= chunk_size)%Z ->
  chunk_of xdata ydata chunk_size f = Ok (xchunk, ychunk) ->
  StronglySorted Qlt xchunk ->
  fit_constant curve_fit xchunk ychunk c ->
  exists background,
    inelasticBGSubstract curve_fit xdata ydata [(f, v)] chunk_size
    = Ok (xdata, background)
    /\ Forall (fun b => b == c) background.
Proof.
  intros Hcs Hch _ Hfit.
  assert (Hlens : length xchunk = Z.to_nat (2 * chunk_size + 1)
                  /\ length ychunk = Z.to_nat (2 * chunk_size + 1)).
  { unfold chunk_of in Hch.
    destruct (argmin _) as [ind|]; cbn [bind] in Hch; [|discriminate].
    destruct (take xdata _) as [xs|] eqn:Hx; cbn [bind] in Hch;
      [|discriminate].
    destruct (take ydata _) as [ys|] eqn:Hy; cbn [bind] in Hch;
      [|discriminate].
    injection Hch as <- <-.
    apply mapM_length in Hx. apply mapM_length in Hy.
    rewrite arange_length in Hx, Hy. split; [rewrite Hx | rewrite Hy]; lia. }
  assert (Hx : xchunk <> []).
  { intros E. rewrite E in Hlens. cbn [length] in Hlens. lia. }
  assert (Hy : ychunk <> []).
  { intros E. rewrite E in Hlens. cbn [length] in Hlens. lia. }
  unfold inelasticBGSubstract, first_column. cbn [map fst bind mapM].
  rewrite Hch. cbn [bind mapM map fst concat].
  rewrite (chunk_constants_fitted curve_fit _ _ c Hx Hy Hfit).
  cbn [bind concat]. rewrite !app_nil_r.
  rewrite interp_Ok by (try assumption; now rewrite length_map).
  cbn [bind]. eexists. split; [reflexivity|].
  apply Forall_forall. intros b Hb. apply in_map_iff in Hb.
  destruct Hb as [x [<- _]]. rewrite (interp1_flat x (c * 1) xchunk Hx).
  ring.
Qed.

Lemma background_single_feature_witness :
  ((0 <= 2)%Z
   /\ chunk_of demo_xdata demo_ydata 2 8
      = Ok ([6; 7; 8; 9; 10], [2; 4; 6; 4; 2])
   /\ StronglySorted Qlt [6; 7; 8; 9; 10]
   /\ fit_constant immediate_fit [6; 7; 8; 9; 10] [2; 4; 6; 4; 2] 2)
  /\ exists background,
       inelasticBGSubstract immediate_fit demo_xdata demo_ydata [(8, 0)] 2
       = Ok (demo_xdata, background)
       /\ Forall (fun b => b == 2) background.
Proof.
  assert (Hs : StronglySorted Qlt [6; 7; 8; 9; 10]) by (repeat constructor).
  assert (Hf : fit_constant immediate_fit [6; 7; 8; 9; 10] [2; 4; 6; 4; 2] 2).
  { intros p0 H. vm_compute in H. injection H as <-.
    eexists. split; reflexivity. }
  split; [split; [lia | split; [reflexivity | split; [exact Hs | exact Hf]]]|].
  apply (background_single_feature immediate_fit demo_xdata demo_ydata 8 0 2
           [6; 7; 8; 9; 10] [2; 4; 6; 4; 2] 2);
    [lia | reflexivity | exact Hs | exact Hf].
Defined.

(** No points, the default, is an [IndexError]; an empty curve with some
    point is a [ValueError]. *)
Theorem inelasticBGSubstract_degenerate
  (curve_fit : list Q -> list Q -> list Q -> option (list Q))
  (xdata ydata : list Q) (p : Q * Q) (points : list (Q * Q))
  (chunk_size : Z) :
  inelasticBGSubstract curve_fit xdata ydata [] chunk_size = Raise IndexError
  /\ inelasticBGSubstract curve_fit [] ydata (p :: points) chunk_size
     = Raise ValueError.
Proof. split; reflexivity. Qed.

(** A negative chunk size gives empty chunks, whose extrema do not exist:
    with some point and a nonempty curve the call raises [ValueError]. *)
Theorem inelasticBGSubstract_negative_chunk_size
  (curve_fit : list Q -> list Q -> list Q -> option (list Q))
  (xdata ydata : list Q) (points : list (Q * Q)) (chunk_size : Z) :
  xdata <> [] -> points <> [] -> (chunk_size < 0)%Z ->
  inelasticBGSubstract curve_fit xdata ydata points chunk_size
  = Raise ValueError.
Proof.
  intros Hx Hp Hcs. unfold inelasticBGSubstract.
  destruct points as [|p points]; [congruence|].
  unfold first_column; cbn [bind].
  assert (Hch : forall f, chunk_of xdata ydata chunk_size f = Ok ([], [])).
  { intros f. unfold chunk_of.
    destruct (argmin_Ok (map (fun x => Qabs (x - f)) xdata)) as [ind Hind].
    { intros E. apply map_eq_nil in E. contradiction. }
    rewrite Hind. cbn [bind]. unfold arange.
    replace (Z.to_nat (Z.of_nat ind + chunk_size + 1
                       - (Z.of_nat ind - chunk_size))) with 0%nat by lia.
    reflexivity. }
  assert (Hall : forall l, mapM (chunk_of xdata ydata chunk_size) l
                           = Ok (map (fun _ => ([], [])) l)).
  { induction l as [|f l IH]; [reflexivity|].
    cbn [mapM map]. now rewrite Hch, IH. }
  rewrite Hall. cbn [map bind mapM]. reflexivity.
Qed.

Lemma inelasticBGSubstract_negative_chunk_size_witness :
  (demo_xdata <> [] /\ [(1, 0)] <> ([] : list (Q * Q)) /\ (-1 < 0)%Z)
  /\ inelasticBGSubstract immediate_fit demo_xdata demo_ydata [(1, 0)] (-1)
     = Raise ValueError.
Proof.
  split; [repeat split; try discriminate; lia|].
  apply (inelasticBGSubstract_negative_chunk_size immediate_fit demo_xdata
           demo_ydata [(1, 0)] (-1)); [discriminate | discriminate | lia].
Defined.

(** With chunks of at least five samples, as many as the fit has
    parameters, when the chunks of all the features are extracted but the
    fit never converges, the call raises [RuntimeError]: no chunk is
    skipped. *)
Theorem inelasticBGSubstract_fit_failure
  (curve_fit : list Q -> list Q -> list Q -> option (list Q))
  (xdata ydata : list Q) (points : list (Q * Q)) (chunk_size : Z) :
  xdata <> [] -> length ydata = length xdata -> (2 <= chunk_size)%Z ->
  points <> [] ->
  (forall f, In f (map fst points) ->
             overruns_right xdata chunk_size f = false) ->
  (forall xchunk ychunk p0, curve_fit xchunk ychunk p0 = None) ->
  inelasticBGSubstract curve_fit xdata ydata points chunk_size
  = Raise RuntimeError.
Proof.
  intros Hx Hlen Hcs2 Hp Hin Hfit.
  assert (Hcs : (0 <= chunk_size)%Z) by lia.
  unfold inelasticBGSubstract.
  destruct points as [|p points]; [congruence|].
  unfold first_column; cbn [bind].
  destruct (mapM_Ok (chunk_of xdata ydata chunk_size) (map fst (p :: points)))
    as [chunks Hchunks].
  { intros f Hf.
    destruct (proj1 (chunk_of_range xdata ydata chunk_size f Hx Hlen Hcs)
                (Hin f Hf)) as [xs [ys [H _]]].
    now exists (xs, ys). }
  rewrite Hchunks. cbn [bind].
  destruct chunks as [|[xs ys] chunks].
  { apply mapM_length in Hchunks. discriminate Hchunks. }
  destruct (mapM_nth _ _ _ 0%nat (fst p) Hchunks eq_refl) as [ch [Hch E]].
  cbn [nth_error] in E. injection E as <-.
  destruct (proj1 (chunk_of_range xdata ydata chunk_size (fst p) Hx Hlen Hcs)
              (Hin (fst p) (or_introl eq_refl))) as [xs' [ys' [H [Lx Ly]]]].
  rewrite Hch in H. injection H as <- <-.
  assert (Hxs : xs <> [])
    by (intros E; rewrite E in Lx; cbn [length] in Lx; lia).
  assert (Hys : ys <> [])
    by (intros E; rewrite E in Ly; cbn [length] in Ly; lia).
  cbn [mapM]. unfold chunk_constants at 1; cbn [fst snd].
  destruct (parameter_guesses_Ok xs ys Hxs Hys) as [p0 Hp0].
  rewrite Hp0. cbn [bind]. now rewrite Hfit.
Qed.

Lemma inelasticBGSubstract_fit_failure_witness :
  (demo_xdata <> [] /\ length demo_ydata = length demo_xdata /\ (2 <= 2)%Z
   /\ [(2, 0); (8, 0)] <> ([] : list (Q * Q)))
  /\ inelasticBGSubstract (fun _ _ _ => None) demo_xdata demo_ydata
       [(2, 0); (8, 0)] 2
     = Raise RuntimeError.
Proof.
  split; [repeat split; try discriminate; lia|].
  apply (inelasticBGSubstract_fit_failure (fun _ _ _ => None) demo_xdata
           demo_ydata [(2, 0); (8, 0)] 2);
    [discriminate | reflexivity | lia | discriminate | | reflexivity].
  intros f [<- | [<- | []]]; reflexivity.
Defined.

Lemma fold_left_Qmax_spec (l : list Q) (v : Q) :
  let m := fold_left Qmax l v in
  In m (v :: l) /\ forall x, In x (v :: l) -> x <= m.
Proof.
  revert v. induction l as [|a l IH]; intros v; cbv zeta; cbn [fold_left].
  - split; [now left|]. intros x [<- | []]. apply Qle_refl.
  - destruct (IH (Qmax v a)) as [Hin Hle]. split.
    + destruct Hin as [E | Hin]; [|right; now right].
      rewrite <- E. unfold Qmax, GenericMinMax.gmax.
      destruct (Qcompare v a); [now left | right; now left | now left].
    + intros x [<- | [<- | Hx]].
      * eapply Qle_trans; [apply Q.le_max_l | apply Hle; now left].
      * eapply Qle_trans; [apply Q.le_max_r | apply Hle; now left].
      * apply Hle. now right.
Qed.

Lemma fold_left_Qmin_spec (l : list Q) (v : Q) :
  let m := fold_left Qmin l v in
  In m (v :: l) /\ forall x, In x (v :: l) -> m <= x.
Proof.
  revert v. induction l as [|a l IH]; intros v; cbv zeta; cbn [fold_left].
  - split; [now left|]. intros x [<- | []]. apply Qle_refl.
  - destruct (IH (Qmin v a)) as [Hin Hle]. split.
    + destruct Hin as [E | Hin]; [|right; now right].
      rewrite <- E. unfold Qmin, GenericMinMax.gmin.
      destruct (Qcompare v a); [now left | now left | right; now left].
    + intros x [<- | [<- | Hx]].
      * eapply Qle_trans; [apply Hle; now left | apply Q.le_min_l].
      * eapply Qle_trans; [apply Hle; now left | apply Q.le_min_r].
      * apply Hle. now right.
Qed.

Lemma amax_spec (a : list Q) (m : Q) :
  amax a = Ok m -> In m a /\ forall x, In x a -> x <= m.
Proof.
  destruct a as [|v l]; [discriminate|]. cbn [amax].
  intros H. injection H as <-. apply fold_left_Qmax_spec.
Qed.

Lemma amin_spec (a : list Q) (m : Q) :
  amin a = Ok m -> In m a /\ forall x, In x a -> m <= x.
Proof.
  destruct a as [|v l]; [discriminate|]. cbn [amin].
  intros H. injection H as <-. apply fold_left_Qmin_spec.
Qed.

Lemma parameter_guesses_inv (xchunk ychunk p0 : list Q) :
  parameter_guesses xchunk ychunk = Ok p0 ->
  exists ymax ymin xmax xmin,
    amax ychunk = Ok ymax /\ amin ychunk = Ok ymin
    /\ amax xchunk = Ok xmax /\ amin xchunk = Ok xmin
    /\ p0 = [ymax - ymin; (xmax - xmin) / 2; 1; 1; ymin].
Proof.
  unfold parameter_guesses.
  destruct (amax ychunk) as [ymax|]; cbn [bind]; [|discriminate].
  destruct (amin ychunk) as [ymin|]; cbn [bind]; [|discriminate].
  destruct (amax xchunk) as [xmax|]; cbn [bind]; [|discriminate].
  destruct (amin xchunk) as [xmin|]; cbn [bind]; [|discriminate].
  intros H. injection H as <-. now exists ymax, ymin, xmax, xmin.
Qed.

(** The initial guesses of a fit: both widths are 1; the constant is a
    lower bound of the ordinates of the chunk and the height, which is not
    negative, is what their largest adds to it. *)
Theorem parameter_guesses_bracket (xchunk ychunk p0 : list Q) :
  parameter_guesses xchunk ychunk = Ok p0 ->
  exists height center constant,
    p0 = [height; center; 1; 1; constant]
    /\ 0 <= height
    /\ In constant ychunk
    /\ (exists y, In y ychunk /\ y == constant + height)
    /\ forall y, In y ychunk -> constant <= y <= constant + height.
Proof.
  intros H.
  destruct (parameter_guesses_inv _ _ _ H)
    as [ymax [ymin [xmax [xmin [Hymax [Hymin [_ [_ ->]]]]]]]].
  destruct (amax_spec _ _ Hymax) as [Imax Lmax].
  destruct (amin_spec _ _ Hymin) as [Imin Lmin].
  eexists; eexists; eexists. split; [reflexivity|].
  split; [|split; [exact Imin|split]].
  - setoid_replace 0 with (ymin - ymin) by ring.
    apply Qplus_le_l. now apply Lmin.
  - exists ymax. split; [exact Imax | ring].
  - intros y Hy. split; [now apply Lmin|].
    setoid_replace (ymin + (ymax - ymin)) with ymax by ring.
    now apply Lmax.
Qed.

Lemma parameter_guesses_bracket_witness :
  parameter_guesses [11; 0; 1; 2; 3] [3; 5; 7; 9; 7]
  = Ok [9 - 3; (11 - 0) / 2; 1; 1; 3]
  /\ exists height center constant,
       [9 - 3; (11 - 0) / 2; 1; 1; 3] = [height; center; 1; 1; constant]
       /\ 0 <= height
       /\ In constant [3; 5; 7; 9; 7]
       /\ (exists y, In y [3; 5; 7; 9; 7] /\ y == constant + height)
       /\ forall y, In y [3; 5; 7; 9; 7] ->
                    constant <= y <= constant + height.
Proof.
  split; [reflexivity|].
  exact (parameter_guesses_bracket [11; 0; 1; 2; 3] [3; 5; 7; 9; 7] _ eq_refl).
Defined.

(** The guess for the center of the peak is half the extent of the chunk,
    not a position in it: when the abscissae of the chunk lie in
    [[lo, hi]] with [hi < 3*lo], the guess is to the left of all of
    them. *)
Theorem center_guess_left_of_chunk (xchunk ychunk p0 : list Q) (lo hi : Q) :
  parameter_guesses xchunk ychunk = Ok p0 ->
  (forall x, In x xchunk -> lo <= x <= hi) ->
  hi < 3 * lo ->
  exists center,
    nth_error p0 1 = Some center
    /\ forall x, In x xchunk -> center < x.
Proof.
  intros H Hx Hhi.
  destruct (parameter_guesses_inv _ _ _ H)
    as [ymax [ymin [xmax [xmin [_ [_ [Hxmax [Hxmin ->]]]]]]]].
  destruct (amax_spec _ _ Hxmax) as [Imax _].
  destruct (amin_spec _ _ Hxmin) as [Imin _].
  eexists. split; [reflexivity|]. intros x Hin.
  destruct (Hx x Hin) as [Hlo _].
  destruct (Hx xmax Imax) as [_ Hmax].
  destruct (Hx xmin Imin) as [Hmin _].
  apply Qlt_le_trans with (y := lo); [|exact Hlo].
  apply Qlt_shift_div_r; [reflexivity|]. lra.
Qed.

Lemma center_guess_left_of_chunk_witness :
  (parameter_guesses [6; 7; 8; 9; 10] [4; 2; 4; 6; 4]
   = Ok [6 - 2; (10 - 6) / 2; 1; 1; 2]
   /\ (forall x, In x [6; 7; 8; 9; 10] -> 6 <= x <= 10)
   /\ 10 < 3 * 6)
  /\ exists center,
       nth_error [6 - 2; (10 - 6) / 2; 1; 1; 2] 1 = Some center
       /\ forall x, In x [6; 7; 8; 9; 10] -> center < x.
Proof.
  assert (Hx : forall x, In x [6; 7; 8; 9; 10] -> 6 <= x <= 10).
  { intros x [<- | [<- | [<- | [<- | [<- | []]]]]]; split; discriminate. }
  split; [split; [reflexivity | split; [exact Hx | reflexivity]]|].
  exact (center_guess_left_of_chunk [6; 7; 8; 9; 10] [4; 2; 4; 6; 4] _ 6 10
           eq_refl Hx eq_refl).
Defined.

(** The scan for the minimum: the result is either the index it started
    with, when nothing smaller follows, or the position of a smaller
    entry. *)
Lemma argmin_from_spec (l : list Q) :
  forall (best : Q) (besti i : nat),
    let r := argmin_from best besti i l in
    (r = besti /\ forall v, In v l -> best <= v)
    \/ (exists m vm, r = (i + m)%nat /\ nth_error l m = Some vm
                     /\ vm < best /\ forall v, In v l -> vm <= v).
Proof.
  induction l as [|a l IH]; intros best besti i; cbv zeta; cbn [argmin_from].
  - left. split; [reflexivity | intros v []].
  - destruct (Qltb a best) eqn:Hlt.
    + apply Qltb_lt in Hlt. right.
      destruct (IH a i (S i)) as [[-> Hall] | [m [vm [-> [Hm [Hvm Hall]]]]]].
      * exists 0%nat, a. rewrite Nat.add_0_r. split; [reflexivity|].
        split; [reflexivity|]. split; [exact Hlt|].
        intros v [<- | Hv]; [apply Qle_refl | now apply Hall].
      * exists (S m), vm. rewrite Nat.add_succ_r. split; [reflexivity|].
        split; [exact Hm|]. split; [now apply Qlt_trans with (y := a)|].
        intros v [<- | Hv]; [now apply Qlt_le_weak | now apply Hall].
    + apply Qltb_ge in Hlt.
      destruct (IH best besti (S i))
        as [[-> Hall] | [m [vm [-> [Hm [Hvm Hall]]]]]].
      * left. split; [reflexivity|].
        intros v [<- | Hv]; [exact Hlt | now apply Hall].
      * right. exists (S m), vm. rewrite Nat.add_succ_r.
        split; [reflexivity|]. split; [exact Hm|]. split; [exact Hvm|].
        intros v [<- | Hv]; [|now apply Hall].
        apply Qlt_le_weak. now apply Qlt_le_trans with (y := best).
Qed.

Lemma argmin_spec (l : list Q) (ind : nat) :
  argmin l = Ok ind ->
  exists m, nth_error l ind = Some m /\ forall v, In v l -> m <= v.
Proof.
  destruct l as [|a l]; [discriminate|]. cbn [argmin].
  intros H. injection H as <-.
  destruct (argmin_from_spec l a 0%nat 1%nat)
    as [[-> Hall] | [m [vm [-> [Hm [Hvm Hall]]]]]].
  - exists a. split; [reflexivity|].
    intros v [<- | Hv]; [apply Qle_refl | now apply Hall].
  - exists vm. split; [exact Hm|].
    intros v [<- | Hv]; [now apply Qlt_le_weak | now apply Hall].
Qed.

(** The chunk of a feature is centered on a sample of the curve nearest to
    the feature: the middle entry of the chunk is an abscissa whose
    distance to the feature is the least over the curve. *)
Theorem chunk_centered_on_nearest_sample (xdata ydata : list Q)
  (chunk_size : Z) (feature : Q) (xchunk ychunk : list Q) :
  (0 <= chunk_size)%Z ->
  chunk_of xdata ydata chunk_size feature = Ok (xchunk, ychunk) ->
  exists x0,
    nth_error xchunk (Z.to_nat chunk_size) = Some x0
    /\ In x0 xdata
    /\ forall x, In x xdata -> Qabs (x0 - feature) <= Qabs (x - feature).
Proof.
  intros Hcs Hch. unfold chunk_of in Hch.
  destruct (argmin _) as [ind|] eqn:Harg; cbn [bind] in Hch; [|discriminate].
  destruct (take xdata _) as [xs|] eqn:Hx; cbn [bind] in Hch; [|discriminate].
  destruct (take ydata _) as [ys|]; cbn [bind] in Hch; [|discriminate].
  injection Hch as <- <-.
  destruct (argmin_spec _ _ Harg) as [m [Hm Hall]].
  rewrite nth_error_map in Hm.
  destruct (nth_error xdata ind) as [x0|] eqn:Hx0; [|discriminate].
  injection Hm as <-.
  assert (Hk : nth_error (arange (Z.of_nat ind - chunk_size)
                                 (Z.of_nat ind + chunk_size + 1))
                 (Z.to_nat chunk_size) = Some (Z.of_nat ind)).
  { unfold arange. rewrite nth_error_map, nth_error_seq.
    replace (Z.to_nat chunk_size
             <? Z.to_nat (Z.of_nat ind + chunk_size + 1
                          - (Z.of_nat ind - chunk_size)))%nat with true
      by (symmetry; apply Nat.ltb_lt; lia).
    cbn [option_map Nat.add]. f_equal. lia. }
  destruct (mapM_nth _ _ _ _ _ Hx Hk) as [b [Hb Hnth]].
  assert (Hind : (ind < length xdata)%nat)
    by (apply nth_error_Some; congruence).
  rewrite (take1_in_range xdata ind Hind) in Hb. injection Hb as <-.
  rewrite (nth_error_nth xdata ind 0 Hx0) in Hnth.
  exists x0. split; [exact Hnth|]. split.
  - exact (nth_error_In _ _ Hx0).
  - intros x Hin. apply Hall.
    apply in_map_iff. now exists x.
Qed.

Lemma chunk_centered_on_nearest_sample_witness :
  ((0 <= 2)%Z
   /\ chunk_of demo_xdata demo_ydata 2 (17 # 2)
      = Ok ([6; 7; 8; 9; 10], [2; 4; 6; 4; 2]))
  /\ exists x0,
       nth_error [6; 7; 8; 9; 10] (Z.to_nat 2) = Some x0
       /\ In x0 demo_xdata
       /\ forall x, In x demo_xdata ->
                    Qabs (x0 - (17 # 2)) <= Qabs (x - (17 # 2)).
Proof.
  split; [split; [lia | reflexivity]|].
  apply (chunk_centered_on_nearest_sample demo_xdata demo_ydata 2 (17 # 2)
           [6; 7; 8; 9; 10] [2; 4; 6; 4; 2]); [lia | reflexivity].
Defined.

(* ------------------------------------------------------------------ *)
(** * Properties of the scan ranges *)

Lemma split_on_not_nil (sep : ascii) (s : list ascii) : split_on sep s <> [].
Proof.
  induction s as [|c s IH]; cbn [split_on]; [discriminate|].
  destruct (Ascii.eqb c sep); [discriminate|].
  destruct (split_on sep s); discriminate.
Qed.

(** The loop of [parse_range]: it succeeds when every element parses, and
    then it has appended the integers of the elements, in order. *)
Lemma parse_loop_Ok (int : list ascii -> option Z)
  (elements : list (list ascii)) :
  forall acc iterable,
    foldM (fun iterable elem =>
             do xs <- parse_element int elem; Ok (iterable ++ xs))
          elements acc = Ok iterable ->
    forall z, In z iterable
              <-> In z acc
                  \/ exists elem xs, In elem elements
                                     /\ parse_element int elem = Ok xs
                                     /\ In z xs.
Proof.
  induction elements as [|e elements IH]; intros acc iterable; cbn [foldM].
  - intros H z. injection H as <-. split; [now left|].
    intros [H | [elem [xs [[] _]]]]. exact H.
  - destruct (parse_element int e) as [xs|] eqn:He; cbn [bind];
      [|discriminate].
    intros H z. rewrite (IH _ _ H z), in_app_iff. split.
    + intros [[Hz | Hz] | [elem [ys [Hin [Hp Hz]]]]].
      * now left.
      * right. exists e, xs. split; [now left | now split].
      * right. exists elem, ys. split; [now right | now split].
    + intros [Hz | [elem [ys [[<- | Hin] [Hp Hz]]]]].
      * left. now left.
      * left. right. congruence.
      * right. exists elem, ys. now split.
Qed.

Lemma parse_loop_raises (int : list ascii -> option Z)
  (elements : list (list ascii)) (elem : list ascii) :
  In elem elements -> parse_element int elem = Raise ValueError ->
  forall acc,
    foldM (fun iterable e =>
             do xs <- parse_element int e; Ok (iterable ++ xs))
          elements acc = Raise ValueError.
Proof.
  intros Hin He acc.
  assert (Hall : forall acc' x e',
            (do xs <- parse_element int x; Ok (acc' ++ xs)) = Raise e' ->
            e' = ValueError).
  { intros acc' x e'. unfold parse_element.
    destruct (int x); cbn [bind]; [discriminate|].
    destruct (map int (split_on ":"%char x)) as [|[a|] [|[b|] [|c l]]];
      cbn [bind]; congruence. }
  revert acc. induction elements as [|x elements IH]; intros acc;
    [contradiction|].
  cbn [foldM].
  destruct (parse_element int x) as [xs|e'] eqn:Hx; cbn [bind].
  - destruct Hin as [-> | Hin]; [congruence | now apply IH].
  - f_equal. apply (Hall acc x e'). now rewrite Hx.
Qed.

(** The integers returned by [parse_range] are strictly increasing: sorted
    and without repetition. *)
Theorem parse_range_sorted (int : list ascii -> option Z)
  (range_str : list ascii) (l : list Z) :
  parse_range int range_str = Ok l -> StronglySorted Z.lt l.
Proof.
  unfold parse_range; cbv zeta.
  destruct (remove_spaces range_str) as [|c s].
  { intros H. injection H as <-. constructor. }
  destruct (split_on ","%char (c :: s)) as [|e elements].
  { intros H. injection H as <-. constructor. }
  destruct (foldM _ _ _) as [iterable|]; cbn [bind]; [|discriminate].
  intros H. injection H as <-. apply unique_sorted.
Qed.

Lemma parse_range_sorted_witness :
  parse_range decimal_int
    ["7"; ","; " "; "3"; ":"; "5"; ","; "4"; ","; "-"; "1"]%char
  = Ok [-1; 3; 4; 5; 7]%Z
  /\ StronglySorted Z.lt [-1; 3; 4; 5; 7]%Z.
Proof.
  split; [reflexivity|].
  exact (parse_range_sorted decimal_int
           ["7"; ","; " "; "3"; ":"; "5"; ","; "4"; ","; "-"; "1"]%char _
           eq_refl).
Defined.

(** A string of spaces only, the empty string included, parses to the
    empty list. *)
Theorem parse_range_blank (int : list ascii -> option Z)
  (range_str : list ascii) :
  Forall (fun c => c = " "%char) range_str ->
  parse_range int range_str = Ok [].
Proof.
  intros H. unfold parse_range; cbv zeta.
  replace (remove_spaces range_str) with (@nil ascii); [reflexivity|].
  symmetry. apply filter_none. intros c Hc.
  rewrite Forall_forall in H. now rewrite (H c Hc).
Qed.

Lemma parse_range_blank_witness :
  Forall (fun c => c = " "%char) [" "; " "]%char
  /\ parse_range decimal_int [" "; " "]%char = Ok [].
Proof.
  assert (H : Forall (fun c => c = " "%char) [" "; " "]%char)
    by (repeat constructor).
  split; [exact H | exact (parse_range_blank decimal_int _ H)].
Defined.

(** The integers of the result are those of the elements between the
    commas: an element that reads as an integer gives that integer, and an
    element [start:stop] gives all the integers from [start] to [stop],
    both included. *)
Theorem parse_range_members (int : list ascii -> option Z)
  (range_str : list ascii) (l : list Z) :
  remove_spaces range_str <> [] ->
  parse_range int range_str = Ok l ->
  forall z,
    In z l
    <-> exists elem,
          In elem (split_on ","%char (remove_spaces range_str))
          /\ (int elem = Some z
              \/ (int elem = None
                  /\ exists sa sb start stop,
                       split_on ":"%char elem = [sa; sb]
                       /\ int sa = Some start /\ int sb = Some stop
                       /\ (start <= z <= stop)%Z)).
Proof.
  intros Hne. unfold parse_range; cbv zeta.
  destruct (remove_spaces range_str) as [|c s] eqn:Es; [congruence|].
  pose proof (split_on_not_nil ","%char (c :: s)) as Hsp.
  destruct (split_on ","%char (c :: s)) as [|e elements] eqn:El;
    [congruence|].
  destruct (foldM _ _ _) as [iterable|] eqn:Hloop; cbn [bind];
    [|discriminate].
  intros H z. injection H as <-.
  rewrite in_unique, (parse_loop_Ok int _ _ _ Hloop z). split.
  - intros [[] | [elem [xs [Hin [Hp Hz]]]]].
    exists elem. split; [exact Hin|].
    unfold parse_element in Hp. destruct (int elem) as [fl|] eqn:Hi.
    + injection Hp as <-. destruct Hz as [-> | []]. now left.
    + right. split; [reflexivity|].
      destruct (split_on ":"%char elem) as [|sa [|sb [|sc parts]]] eqn:Hs;
        cbn [map] in Hp; try discriminate.
      * destruct (int sa); discriminate.
      * destruct (int sa) as [start|] eqn:Ha; [|discriminate].
        destruct (int sb) as [stop|] eqn:Hb; [|discriminate].
        injection Hp as <-. apply arange_in in Hz.
        exists sa, sb, start, stop.
        repeat split; try reflexivity; try assumption; lia.
      * destruct (int sa); [|discriminate].
        destruct (int sb); discriminate.
  - intros [elem [Hin [Hi | [Hi [sa [sb [start [stop [Hs [Ha [Hb Hz]]]]]]]]]]].
    + right. exists elem, [z]. split; [exact Hin|]. split; [|now left].
      unfold parse_element. now rewrite Hi.
    + right. exists elem, (arange start (stop + 1)).
      split; [exact Hin|]. split; [|apply in_arange; lia].
      unfold parse_element. rewrite Hi, Hs. cbn [map]. now rewrite Ha, Hb.
Qed.

Lemma parse_range_members_witness :
  (remove_spaces ["3"; ":"; "5"; ","; " "; "9"]%char <> []
   /\ parse_range decimal_int ["3"; ":"; "5"; ","; " "; "9"]%char
      = Ok [3; 4; 5; 9]%Z)
  /\ (In 5%Z [3; 4; 5; 9]%Z
      <-> exists elem,
            In elem (split_on ","%char
                       (remove_spaces ["3"; ":"; "5"; ","; " "; "9"]%char))
            /\ (decimal_int elem = Some 5%Z
                \/ (decimal_int elem = None
                    /\ exists sa sb start stop,
                         split_on ":"%char elem = [sa; sb]
                         /\ decimal_int sa = Some start
                         /\ decimal_int sb = Some stop
                         /\ (start <= 5 <= stop)%Z))).
Proof.
  split; [split; [discriminate | reflexivity]|].
  apply (parse_range_members decimal_int
           ["3"; ":"; "5"; ","; " "; "9"]%char [3; 4; 5; 9]%Z);
    [discriminate | reflexivity].
Defined.

(** An element that is neither an integer nor two integers around a colon
    makes the whole call raise [ValueError]. *)
Theorem parse_range_unparseable (int : list ascii -> option Z)
  (range_str elem : list ascii) :
  In elem (split_on ","%char (remove_spaces range_str)) ->
  remove_spaces range_str <> [] ->
  parse_element int elem = Raise ValueError ->
  parse_range int range_str = Raise ValueError.
Proof.
  intros Hin Hne He. unfold parse_range; cbv zeta.
  destruct (remove_spaces range_str) as [|c s]; [congruence|].
  destruct (split_on ","%char (c :: s)) as [|e elements]; [contradiction|].
  now rewrite (parse_loop_raises int (e :: elements) elem Hin He).
Qed.

Lemma parse_range_unparseable_witness :
  (In ["4"; ":"]%char
      (split_on ","%char (remove_spaces ["3"; ","; "4"; ":"]%char))
   /\ remove_spaces ["3"; ","; "4"; ":"]%char <> []
   /\ parse_element decimal_int ["4"; ":"]%char = Raise ValueError)
  /\ parse_range decimal_int ["3"; ","; "4"; ":"]%char = Raise ValueError.
Proof.
  split; [split; [right; now left | split; [discriminate | reflexivity]]|].
  apply (parse_range_unparseable decimal_int ["3"; ","; "4"; ":"]%char
           ["4"; ":"]%char); [right; now left | discriminate | reflexivity].
Defined.

(* ------------------------------------------------------------------ *)
(** * The rounded distance of a pixel *)

(** The radius under which a pixel is binned is a non-negative integer
    within one half of the pixel's distance to the center on the grid of
    the averager: the squared distance lies between the squares of the
    radius minus and plus one half. *)
Theorem pixel_radius_nearest (n : nat) (xc yc : Q) (px : nat * nat * Q) :
  let d2 := (axis_coordinate n (snd (fst px)) - xc) ^ 2
            + (axis_coordinate n (fst (fst px)) - yc) ^ 2 in
  let r := inject_Z (pixel_radius n xc yc px) in
  0 <= r
  /\ d2 <= (r + (1 # 2)) ^ 2
  /\ (1 <= r -> (r - (1 # 2)) ^ 2 <= d2).
Proof.
  cbv zeta. unfold pixel_radius.
  set (dx := axis_coordinate n (snd (fst px)) - xc).
  set (dy := axis_coordinate n (fst (fst px)) - yc).
  assert (Hd : 0 <= dx ^ 2 + dy ^ 2).
  { simpl. nra. }
  split.
  - change 0 with (inject_Z 0). rewrite <- Zle_Qle.
    apply around_sqrt_nonneg.
  - exact (around_sqrt_nearest (dx ^ 2 + dy ^ 2) Hd).
Qed.
